(** * linkedin-stats: the field extractors of [parser.py]

    A shallow embedding of [Message] (src/parser.py): every cached property
    becomes a function of the raw block, [as_dict] assembles the record in the
    source's order of evaluation, and the failures the source raises
    ([LookupError], [AssertionError], the date parser's error) are values of
    an error type.

    Python's [str] is a sequence of Unicode code points, so a block is a list
    of code points.  What the interpreter and the third-party packages bring
    (the Unicode tables behind [\d], [str.lower] and [str.capitalize], the
    [emoji] table, [dateutil]'s parser, the iteration order of a [set]) is
    gathered in a record [Env]; the extractors are defined for any [Env]. *)

From Stdlib Require Import Ascii String.
From Stdlib Require Import List NArith Bool Arith Lia Permutation.
From Stdlib Require Import DecimalString DecimalN.
Import ListNotations.

Set Implicit Arguments.

(** ** Code points and strings *)

Definition char := N.
Definition str := list char.

Definition str_eq_dec : forall a b : str, {a = b} + {a <> b} :=
  list_eq_dec N.eq_dec.

Definition str_eqb (a b : str) : bool :=
  if str_eq_dec a b then true else false.

(** Decoding of the UTF-8 bytes of a literal into code points, so that the
    literals of the source can be written as they stand in it. *)
Fixpoint utf8 (bs : list N) : str :=
  match bs with
  | [] => []
  | b0 :: t0 =>
      if (b0 <? 128)%N then b0 :: utf8 t0
      else if (b0 <? 224)%N then
        match t0 with
        | b1 :: t1 => ((b0 - 192) * 64 + (b1 - 128))%N :: utf8 t1
        | [] => []
        end
      else if (b0 <? 240)%N then
        match t0 with
        | b1 :: b2 :: t2 =>
            ((b0 - 224) * 4096 + (b1 - 128) * 64 + (b2 - 128))%N :: utf8 t2
        | _ => []
        end
      else
        match t0 with
        | b1 :: b2 :: b3 :: t3 =>
            ((b0 - 240) * 262144 + (b1 - 128) * 4096
             + (b2 - 128) * 64 + (b3 - 128))%N :: utf8 t3
        | _ => []
        end
  end.

Definition u (s : string) : str :=
  utf8 (map N_of_ascii (list_ascii_of_string s)).

(** [c] is one character: the code point of a one-character literal. *)
Definition ch (s : string) : char := hd 0%N (u s).

(** [lo <= c <= hi], the test behind a range [[lo-hi]] of a character class. *)
Definition in_range (lo hi : string) (c : char) : bool :=
  ((ch lo <=? c) && (c <=? ch hi))%N.

(** *** [needle in hay] *)

Fixpoint startswith (hay needle : str) {struct needle} : bool :=
  match needle, hay with
  | [], _ => true
  | _ :: _, [] => false
  | n :: needle', h :: hay' => (h =? n)%N && startswith hay' needle'
  end.

Fixpoint contains (needle hay : str) : bool :=
  startswith hay needle ||
  match hay with
  | [] => false
  | _ :: hay' => contains needle hay'
  end.

(** The property [contains] decides. *)
Definition occurs (needle hay : str) : Prop :=
  exists pre post, hay = pre ++ needle ++ post.

(** *** [str.splitlines()]

    The line boundaries are those of CPython's [str.splitlines]; a carriage
    return followed by a line feed is one boundary, and a final boundary
    opens no further line. *)
Definition is_linebreak (c : char) : bool :=
  existsb (N.eqb c) [10; 11; 12; 13; 28; 29; 30; 133; 8232; 8233]%N.

Fixpoint splitlines (s : str) : list str :=
  match s with
  | [] => []
  | c :: rest =>
      if is_linebreak c then
        [] :: match rest with
              | c' :: rest' =>
                  if ((c =? 13) && (c' =? 10))%N then splitlines rest'
                  else splitlines rest
              | [] => []
              end
      else
        match splitlines rest with
        | [] => [[c]]
        | l :: ls => (c :: l) :: ls
        end
  end.

(** *** [str.strip()], [str.split(sep)[0]], [str.removesuffix]

    Whitespace is what CPython's [Py_UNICODE_ISSPACE] accepts. *)
Definition isspace (c : char) : bool :=
  ((9 <=? c) && (c <=? 13) || (28 <=? c) && (c <=? 32)
   || (8192 <=? c) && (c <=? 8202)
   || existsb (N.eqb c) [133; 160; 5760; 8232; 8233; 8239; 8287; 12288])%N.

Fixpoint lstrip (s : str) : str :=
  match s with
  | c :: s' => if isspace c then lstrip s' else s
  | [] => []
  end.

Definition rstrip (s : str) : str := rev (lstrip (rev s)).

Definition strip (s : str) : str := rstrip (lstrip s).

(** [s.split(sep)[0]] for a one-character [sep]: the text before the first
    [sep], all of [s] when there is none. *)
Fixpoint split_head (sep : char) (s : str) : str :=
  match s with
  | [] => []
  | c :: s' => if (c =? sep)%N then [] else c :: split_head sep s'
  end.

Definition endswith (s suffix : str) : bool :=
  startswith (rev s) (rev suffix).

Definition removesuffix (s suffix : str) : str :=
  if endswith s suffix then firstn (length s - length suffix) s else s.

(** ** Regular expressions

    The fragment of [re] the source's four patterns are written in, run the way
    [re] runs it: by backtracking, a greedy quantifier trying the longest
    repetition first and an alternation its left branch first.  A quantifier
    only ever applies to a single character class in these patterns ([Rep]);
    [x?] on a group is [Alt x Eps]. *)

Inductive regex : Type :=
| Eps
| Cls (p : char -> bool)
| Cat (r1 r2 : regex)
| Alt (r1 r2 : regex)
| Rep (p : char -> bool) (lo : nat) (hi : option nat)
| Grp (i : nat) (r : regex).

Definition Chr (c : string) : regex := Cls (N.eqb (ch c)).
Definition Opt (r : regex) : regex := Alt r Eps.
(** [.] matches anything but a line feed. *)
Definition dot (c : char) : bool := negb (c =? 10)%N.

Fixpoint Cats (rs : list regex) : regex :=
  match rs with
  | [] => Eps
  | [r] => r
  | r :: rs' => Cat r (Cats rs')
  end.

(** The groups bound so far, the latest binding first. *)
Definition caps := list (nat * str).

Fixpoint lookup (i : nat) (g : caps) : option str :=
  match g with
  | [] => None
  | (j, w) :: g' => if Nat.eqb i j then Some w else lookup i g'
  end.

(** What was read between the input [s] and its suffix [s']. *)
Definition consumed (s s' : str) : str :=
  firstn (length s - length s') s.

Section Engine.
Variable R : Type.

Definition more (hi : option nat) : bool :=
  match hi with
  | Some 0 => false
  | _ => true
  end.

Fixpoint greedy (p : char -> bool) (lo : nat) (hi : option nat)
         (s : str) (k : str -> option R) : option R :=
  let stop := match lo with 0 => k s | S _ => None end in
  match s with
  | c :: s' =>
      if p c && more hi then
        match greedy p (pred lo) (option_map pred hi) s' k with
        | Some x => Some x
        | None => stop
        end
      else stop
  | [] => stop
  end.

Fixpoint exec (r : regex) (s : str) (g : caps)
         (k : str -> caps -> option R) : option R :=
  match r with
  | Eps => k s g
  | Cls p =>
      match s with
      | c :: s' => if p c then k s' g else None
      | [] => None
      end
  | Cat r1 r2 => exec r1 s g (fun s1 g1 => exec r2 s1 g1 k)
  | Alt r1 r2 =>
      match exec r1 s g k with
      | Some x => Some x
      | None => exec r2 s g k
      end
  | Rep p lo hi => greedy p lo hi s (fun s' => k s' g)
  | Grp i r1 => exec r1 s g (fun s1 g1 => k s1 ((i, consumed s s1) :: g1))
  end.
End Engine.

(** A match object: [group(0)], the groups, and the input left after it. *)
Record rmatch : Type := Match {
  whole : str;
  groups : caps;
  rest_after : str
}.

(** [match.group(i)] for a group that took part in the match ([i >= 1]). *)
Definition group (i : nat) (m : rmatch) : str :=
  match lookup i (groups m) with
  | Some w => w
  | None => []
  end.

(** [rex.match(s)]: a match that starts at the beginning of [s]. *)
Definition match_at (r : regex) (s : str) : option rmatch :=
  exec r s [] (fun s' g => Some (Match (consumed s s') g s')).

(** [rex.fullmatch(s)]: the match has to take all of [s]. *)
Definition fullmatch (r : regex) (s : str) : option rmatch :=
  exec r s []
       (fun s' g => match s' with
                    | [] => Some (Match s g [])
                    | _ :: _ => None
                    end).

(** [rex.search(s)]: the first position a match starts at. *)
Fixpoint search (r : regex) (s : str) : option rmatch :=
  match match_at r s with
  | Some m => Some m
  | None =>
      match s with
      | [] => None
      | _ :: s' => search r s'
      end
  end.

(** [rex.finditer(s)]: the matches from left to right, none overlapping an
    earlier one.  [skip] counts the characters still covered by the last
    match.  (No pattern of the source matches the empty string, so the rule
    [re] has for an empty match does not come into play.) *)
Fixpoint finditer_from (r : regex) (skip : nat) (s : str) : list rmatch :=
  match s with
  | [] => []
  | _ :: s' =>
      match skip with
      | S n => finditer_from r n s'
      | 0 =>
          match match_at r s with
          | Some m => m :: finditer_from r (pred (length (whole m))) s'
          | None => finditer_from r 0 s'
          end
      end
  end.

Definition finditer (r : regex) (s : str) : list rmatch :=
  finditer_from r 0 s.

(** ** Dates, times and [strftime] *)

Record date_t : Type := Date { year : N; month : N; day : N }.
Record time_t : Type := Time { hour : N; minute : N; second : N }.
(** A [datetime.datetime]; [.date()] and [.time()] are its two projections. *)
Record datetime : Type := Datetime { date_of : date_t; time_of : time_t }.

Definition decimal (n : N) : str :=
  map N_of_ascii (list_ascii_of_string (NilZero.string_of_uint (N.to_uint n))).

Definition zfill (width : nat) (s : str) : str :=
  repeat (ch "0") (width - length s) ++ s.

(** The hour on the 12-hour clock: what [%I] prints. *)
Definition hour12 (h : N) : N :=
  if (h mod 12 =? 0)%N then 12%N else (h mod 12)%N.

(** One directive of a format: the letter after [%].  [%Y] is printed on four
    digits, as the documentation of [strftime] gives it; a C library may leave
    a year below 1000 unpadded, and no statement below depends on the text of
    such a year. *)
Definition directive (c : char) (d : datetime) : str :=
  if (c =? ch "Y")%N then zfill 4 (decimal (year (date_of d)))
  else if (c =? ch "m")%N then zfill 2 (decimal (month (date_of d)))
  else if (c =? ch "d")%N then zfill 2 (decimal (day (date_of d)))
  else if (c =? ch "H")%N then zfill 2 (decimal (hour (time_of d)))
  else if (c =? ch "I")%N then zfill 2 (decimal (hour12 (hour (time_of d))))
  else if (c =? ch "M")%N then zfill 2 (decimal (minute (time_of d)))
  else if (c =? ch "S")%N then zfill 2 (decimal (second (time_of d)))
  else [ch "%"; c].

Fixpoint strftime (fmt : str) (d : datetime) : str :=
  match fmt with
  | [] => []
  | c :: fmt' =>
      if (c =? ch "%")%N then
        match fmt' with
        | c' :: fmt'' => directive c' d ++ strftime fmt'' d
        | [] => [c]
        end
      else c :: strftime fmt' d
  end.

(** [datetime.time.strftime] formats as if on 1900-01-01, and
    [datetime.date.strftime] as if at midnight. *)
Definition time_strftime (fmt : str) (t : time_t) : str :=
  strftime fmt (Datetime (Date 1900 1 1) t).

Definition date_strftime (fmt : str) (d : date_t) : str :=
  strftime fmt (Datetime d (Time 0 0 0)).

(** ** Failures *)

Inductive exn : Type :=
| LookupError
| AssertionError (msg : option str)
| ParserError.

Inductive result (A : Type) : Type :=
| Ok (a : A)
| Raise (e : exn).
Arguments Raise {A} e.

Definition bind {A B : Type} (m : result A) (f : A -> result B) : result B :=
  match m with
  | Ok a => f a
  | Raise e => Raise e
  end.

Notation "x <- m ;; k" := (bind m (fun x => k))
  (at level 61, m at next level, right associativity).

(** ** The module-level constant *)

Definition COMPANIES : list str :=
  map u [
    "@fb.com"; "Amazon"; "Ariga"; "Biller"; "Bitpanda"; "BOTS";
    "Capgemini Client"; "Capri Partners"; "Crowdstrike"; "DCVTechnologies";
    "Elastic"; "Enreach"; "Flexport"; "FLYR Labs"; "Form3";
    "GeekSoft Consulting"; "HCL Technologies"; "HelloFresh"; "InDebted";
    "IndyKite"; "Lightspeed"; "M2A Media"; "Makersite"; "Marko"; "Mollie";
    "Nebius"; "NetData"; "Orbis"; "planet.com"; "Pollen"; "PostNL"; "Prodapt";
    "Seamly"; "Sendcloud"; "Sentinels"; "Smart.pr"; "Smiler"; "TCS"; "Tessian";
    "v7labs"; "viafintech"; "vpTech"
  ]%string.

(** ** The environment

    What the source takes from outside itself.  The two laws are facts of
    CPython: lower-casing leaves an ASCII character alone unless it is one
    of [A]..[Z], and iterating a set visits its elements once each, in an
    order the program does not choose. *)

Definition ascii_lower (c : char) : char :=
  if in_range "A" "Z" c then (c + 32)%N else c.

Record Env : Type := {
  (** [\d]: the decimal digits of Unicode (category Nd) *)
  isdecimal : char -> bool;
  (** the lower-case mapping of one character (one to three characters) *)
  tolower_full : char -> str;
  (** whether a capital sigma, between the text before and after it, ends a
      word *)
  final_sigma : str -> str -> bool;
  (** [str.capitalize] *)
  capitalize : str -> str;
  (** [c in EMOJI_DATA], for a one-character string [c] *)
  EMOJI_DATA : char -> bool;
  (** [dateutil.parser.parse]; [None] when it raises *)
  dateutil_parse : str -> option datetime;
  (** the order in which [for company in COMPANIES] visits the set *)
  set_order : list str;
  tolower_full_ascii :
    forall c, (c < 128)%N -> tolower_full c = [ascii_lower c];
  set_order_perm : Permutation set_order COMPANIES
}.

(** [str.lower()]: character by character, a capital sigma (U+03A3) apart,
    which becomes a final or a medial small sigma by its place in the word. *)
Fixpoint lower_from (E : Env) (before s : str) : str :=
  match s with
  | [] => []
  | c :: s' =>
      (if (c =? 931)%N
       then [if final_sigma E before s' then 962%N else 963%N]
       else tolower_full E c)
      ++ lower_from E (before ++ [c]) s'
  end.

Definition lower (E : Env) (s : str) : str := lower_from E [] s.

(** ** The record [as_dict] returns, one field per key *)

Module Fields.
Record t : Type := Make {
  sender_name : str;
  sender_title : str;
  sender_pronouns : str;
  has_name : bool;
  read_cv : bool;
  autogenerated : bool;
  salary_low : str;
  salary_high : str;
  has_emoji : bool;
  has_email : bool;
  has_url : bool;
  company : str;
  python : bool;
  chars : nat;
  date : str;
  time : str
}.
End Fields.

(** ** [class Message]: the properties, as functions of [raw] *)

Module Message.

Definition one_of (set : string) (c : char) : bool :=
  existsb (N.eqb c) (u set).

Definition LF : char := 10%N.

Section Patterns.
Variable E : Env.
Let d := isdecimal E.

(** [(.+)  ?(\d{1,2}:\d{1,2} [AP]M)] *)
Definition name_time_rex : regex :=
  Cats [ Grp 1 (Rep dot 1 None);
         Chr " "; Opt (Chr " ");
         Grp 2 (Cats [ Rep d 1 (Some 2); Chr ":"; Rep d 1 (Some 2);
                       Chr " "; Cls (one_of "AP"); Chr "M" ]) ].

(** [[€£]?(\d{2,3})(k|K|\,000)] *)
Definition salary_rex : regex :=
  Cats [ Opt (Cls (one_of "€£"));
         Grp 1 (Rep d 2 (Some 3));
         Grp 2 (Alt (Chr "k")
               (Alt (Chr "K")
                    (Cats [Chr ","; Chr "0"; Chr "0"; Chr "0"]))) ].

(** [.+@.+\.[a-z]{2,3}] *)
Definition email_rex : regex :=
  Cats [ Rep dot 1 None; Chr "@"; Rep dot 1 None; Chr ".";
         Rep (in_range "a" "z") 2 (Some 3) ].

(** [\n[A-Z]{1}[A-Za-z]{2} \d{1,2}(, \d{4})?] *)
Definition date_rex : regex :=
  Cats [ Cls (N.eqb LF);
         Rep (in_range "A" "Z") 1 (Some 1);
         Rep (fun c => in_range "A" "Z" c || in_range "a" "z" c) 2 (Some 2);
         Chr " "; Rep d 1 (Some 2);
         Opt (Grp 1 (Cats [Chr ","; Chr " "; Rep d 4 (Some 4)])) ].
End Patterns.

Section Properties.
Variable E : Env.
Variable raw : str.

Definition has_name : bool :=
  if contains (u "Gram") raw then true
  else contains (u "Nikita") raw.

Definition read_cv : bool := contains (u "Gram") raw.

Definition autogenerated : bool :=
  if contains (u "Gram") raw then false
  else if negb (contains (u "Nikita") raw) then true
  else contains (u "OR 1 --") raw.

(** The loop of [_name_time] over the lines still to visit. *)
Fixpoint name_time_loop (lines : list str) : result (str * str) :=
  match lines with
  | [] => Raise LookupError
  | line :: lines' =>
      match fullmatch (name_time_rex E) line with
      | None => name_time_loop lines'
      | Some m => Ok (group 1 m, group 2 m)
      end
  end.

Definition _name_time : result (str * str) :=
  name_time_loop (splitlines raw).

(** The three rewritings of the header's name in [sender_name]. *)
Definition clean_name (name : str) : str :=
  let name := split_head (ch "(") name in
  let name := strip name in
  removesuffix name (u " sent the following messages at").

Definition sender_name : result str :=
  nt <- _name_time ;;
  let name := clean_name (fst nt) in
  match name with
  | [] => Raise (AssertionError None)
  | c :: _ =>
      if str_eqb [c] (capitalize E [c]) then Ok name
      else Raise (AssertionError None)
  end.

Definition sender_pronouns : str :=
  if contains (u "she/") (lower E raw) then u "she"
  else if contains (u "he/") (lower E raw) then u "he"
  else if contains (u "they/") (lower E raw) then u "they"
  else u "".

Definition time : result time_t :=
  nt <- _name_time ;;
  match dateutil_parse E (snd nt) with
  | Some dt => Ok (time_of dt)
  | None => Raise ParserError
  end.

(** The loop of [sender_title], with its flag. *)
Fixpoint sender_title_loop (found_dot : bool) (lines : list str) : str :=
  match lines with
  | [] => u ""
  | line :: lines' =>
      if found_dot then line
      else if contains (u "· ") line then sender_title_loop true lines'
      else sender_title_loop found_dot lines'
  end.

Definition sender_title : str :=
  sender_title_loop false (splitlines raw).

(** [matches] when the loop over [finditer] is over. *)
Definition salary_matches : list str :=
  map (group 1) (finditer (salary_rex E) raw).

(** [len(set(l))] *)
Definition distinct (l : list str) : nat :=
  length (nodup str_eq_dec l).

(** [tuple(l)] read as the pair the annotation promises. *)
Definition pair_of (l : list str) : str * str :=
  (nth 0 l [], nth 1 l []).

Definition salary : str * str :=
  let matches := salary_matches in
  match matches with
  | [] => (u "", u "")
  | _ :: _ =>
      if Nat.eqb (distinct matches) 1 then (u "", nth 0 matches [])
      else pair_of (firstn 2 matches)
  end.

Definition has_emoji : bool := existsb (EMOJI_DATA E) raw.

Definition has_email : bool :=
  match search email_rex raw with
  | Some _ => true
  | None => false
  end.

Definition has_url : bool :=
  contains (u "https://") raw || contains (u "www.") raw.

Definition company : str :=
  match find (fun company => contains company raw) (set_order E) with
  | Some company => company
  | None => u ""
  end.

Definition python : bool := contains (u "python") (lower E raw).

Definition date : result date_t :=
  match search (date_rex E) raw with
  | None =>
      name <- sender_name ;;
      Raise (AssertionError (Some name))
  | Some m =>
      match dateutil_parse E (whole m) with
      | Some dt => Ok (date_of dt)
      | None => Raise ParserError
      end
  end.

Definition as_dict : result Fields.t :=
  sender_name_ <- sender_name ;;
  date_ <- date ;;
  time_ <- time ;;
  Ok (Fields.Make
        sender_name_
        sender_title
        sender_pronouns
        has_name
        read_cv
        autogenerated
        (fst salary)
        (snd salary)
        has_emoji
        has_email
        has_url
        company
        python
        (length raw)
        (date_strftime (u "%Y-%m-%d") date_)
        (time_strftime (u "%H:%I") time_)).
End Properties.

End Message.

(** ** [main]

    [text] is what [Path('raw.txt').read_text()] returns.  The program prints
    one line per record, the JSON text of the record; the model keeps the
    records themselves, in the order they are printed, and the exception
    that ends the run, if one does. *)

(** [s.split(sep)] for a non-empty [sep]: the text between the occurrences of
    [sep], found from left to right, none overlapping the one before.  [skip]
    counts the characters of the separator still to pass over, [cur] is the
    piece being read. *)
Fixpoint split_from (sep : str) (skip : nat) (cur s : str) : list str :=
  match s with
  | [] => [cur]
  | c :: s' =>
      match skip with
      | S n => split_from sep n cur s'
      | 0 =>
          if startswith s sep
          then cur :: split_from sep (pred (length sep)) [] s'
          else split_from sep 0 (cur ++ [c]) s'
      end
  end.

Definition split (s sep : str) : list str := split_from sep 0 [] s.

(** The separator of [main], five line feeds. *)
Definition separator : str := repeat Message.LF 5.

(** A string is true when it is not empty. *)
Definition truthy (s : str) : bool :=
  match s with
  | [] => false
  | _ :: _ => true
  end.

(** [raws] as it stands when the loop of [main] starts. *)
Definition raws (text : str) : list str :=
  let raws := split text separator in
  let raws := map strip raws in
  filter truthy raws.

(** The loop of [main]: the records printed, and the exception that stopped
    it. *)
Fixpoint main_loop (E : Env) (raws : list str) : list Fields.t * option exn :=
  match raws with
  | [] => ([], None)
  | raw :: raws' =>
      match Message.as_dict E raw with
      | Raise e => ([], Some e)
      | Ok parsed =>
          let (printed, stopped) := main_loop E raws' in
          (parsed :: printed, stopped)
      end
  end.

Definition main (E : Env) (text : str) : list Fields.t * option exn :=
  main_loop E (raws text).

(** ** An environment for the worked examples

    The tables cut down to ASCII, a date parser for the two shapes of token
    the patterns of the source hand to it (an [h:mm AM/PM] clock time, and an
    English month abbreviation with a day and perhaps a year), and the
    companies in the order of the literal.  On the ASCII blocks of the
    examples below it answers as CPython 3 with [dateutil] does. *)

Module Example.

Definition ascii_upper (c : char) : char :=
  if in_range "a" "z" c then (c - 32)%N else c.

Definition capitalize_ascii (s : str) : str :=
  match s with
  | [] => []
  | c :: s' => ascii_upper c :: map ascii_lower s'
  end.

Definition int (s : str) : N :=
  fold_left (fun acc c => (acc * 10 + (c - ch "0"))%N) s 0%N.

Definition digit : char -> bool := in_range "0" "9".

(** [(\d{1,2}):(\d{1,2}) ([AP])M] *)
Definition clock_rex : regex :=
  Cats [ Grp 1 (Rep digit 1 (Some 2)); Chr ":"; Grp 2 (Rep digit 1 (Some 2));
         Chr " "; Grp 3 (Cls (Message.one_of "AP")); Chr "M" ].

(** [([A-Z][a-z]{2}) (\d{1,2})(, (\d{4}))?] *)
Definition day_rex : regex :=
  Cats [ Grp 1 (Cat (Cls (in_range "A" "Z")) (Rep (in_range "a" "z") 2 (Some 2)));
         Chr " "; Grp 2 (Rep digit 1 (Some 2));
         Opt (Cats [Chr ","; Chr " "; Grp 3 (Rep digit 4 (Some 4))]) ].

Definition months : list str :=
  map u [ "Jan"; "Feb"; "Mar"; "Apr"; "May"; "Jun";
          "Jul"; "Aug"; "Sep"; "Oct"; "Nov"; "Dec" ]%string.

Fixpoint index_of (x : str) (l : list str) (i : N) : option N :=
  match l with
  | [] => None
  | y :: l' => if str_eqb x y then Some i else index_of x l' (i + 1)%N
  end.

Definition leap (y : N) : bool :=
  ((y mod 4 =? 0) && negb (y mod 100 =? 0) || (y mod 400 =? 0))%N.

Definition days_in (y m : N) : N :=
  if (m =? 2)%N then (if leap y then 29 else 28)%N
  else if existsb (N.eqb m) [4; 6; 9; 11]%N then 30%N
  else 31%N.

(** The day the program runs on: a date without a year takes this year. *)
Definition today : date_t := Date 2024 3 15.

Definition parse_clock (s : str) : option datetime :=
  match fullmatch clock_rex s with
  | None => None
  | Some m =>
      let h := int (group 1 m) in
      let mi := int (group 2 m) in
      let pm := str_eqb (group 3 m) (u "P") in
      if ((h <=? 12) && (mi <=? 59))%N then
        let h24 := if pm then (if (h <? 12)%N then (h + 12)%N else h)
                   else (if (h =? 12)%N then 0%N else h) in
        Some (Datetime today (Time h24 mi 0))
      else None
  end.

Definition parse_day (s : str) : option datetime :=
  match fullmatch day_rex (strip s) with
  | None => None
  | Some m =>
      match index_of (group 1 m) months 1 with
      | None => None
      | Some mo =>
          let y := match lookup 3 (groups m) with
                   | Some w => int w
                   | None => year today
                   end in
          let dd := int (group 2 m) in
          if ((1 <=? y) && (1 <=? dd) && (dd <=? days_in y mo))%N
          then Some (Datetime (Date y mo dd) (Time 0 0 0))
          else None
      end
  end.

Definition parse (s : str) : option datetime :=
  match parse_clock s with
  | Some dt => Some dt
  | None => parse_day s
  end.

Definition emoji (c : char) : bool :=
  existsb (N.eqb c) [128075; 128512; 128640]%N.

Definition env : Env :=
  {| isdecimal := digit;
     tolower_full := fun c => [ascii_lower c];
     final_sigma := fun _ _ => false;
     capitalize := capitalize_ascii;
     EMOJI_DATA := emoji;
     dateutil_parse := parse;
     set_order := COMPANIES;
     tolower_full_ascii := fun c _ => eq_refl;
     set_order_perm := Permutation_refl COMPANIES |}.

End Example.

(** * Specification

    The notions the statements below are written in: what it is for a
    pattern to match a word, what the tokens of the source's patterns are, and
    the blocks the examples run on. *)

(** ** The meaning of a pattern

    [Matches r w g g']: the pattern [r] reads exactly the word [w], and the
    groups bound go from [g] to [g']. *)

Definition within (hi : option nat) (n : nat) : Prop :=
  match hi with
  | None => True
  | Some h => n <= h
  end.

Inductive Matches : regex -> str -> caps -> caps -> Prop :=
| M_Eps g : Matches Eps [] g g
| M_Cls p c g : p c = true -> Matches (Cls p) [c] g g
| M_Cat r1 r2 w1 w2 g g1 g2 :
    Matches r1 w1 g g1 -> Matches r2 w2 g1 g2 ->
    Matches (Cat r1 r2) (w1 ++ w2) g g2
| M_AltL r1 r2 w g g' : Matches r1 w g g' -> Matches (Alt r1 r2) w g g'
| M_AltR r1 r2 w g g' : Matches r2 w g g' -> Matches (Alt r1 r2) w g g'
| M_Rep p lo hi w g :
    forallb p w = true -> lo <= length w -> within hi (length w) ->
    Matches (Rep p lo hi) w g g
| M_Grp i r w g g' : Matches r w g g' -> Matches (Grp i r) w g ((i, w) :: g').

(** [finditer], declaratively: the leftmost match, then the leftmost match in
    what follows it, and so on to the end of the text. *)
Inductive Scanned (r : regex) : str -> list rmatch -> Prop :=
| Scanned_nil s :
    (forall pre w post g, s = pre ++ w ++ post -> ~ Matches r w [] g) ->
    Scanned r s []
| Scanned_cons pre m ms :
    Matches r (whole m) [] (groups m) ->
    (forall a w b g,
        pre ++ whole m ++ rest_after m = a ++ w ++ b ->
        Matches r w [] g -> length pre <= length a) ->
    Scanned r (rest_after m) ms ->
    Scanned r (pre ++ whole m ++ rest_after m) (m :: ms).

(** ** The tokens of the source's patterns *)

(** What a salary token is: an optional currency sign, two or three decimal
    digits, and [k], [K] or [,000]. *)
Definition salary_token (E : Env) (digits w : str) : Prop :=
  exists sign unit,
    w = sign ++ digits ++ unit /\
    (sign = [] \/ sign = u "€" \/ sign = u "£") /\
    forallb (isdecimal E) digits = true /\
    2 <= length digits <= 3 /\
    (unit = u "k" \/ unit = u "K" \/ unit = u ",000").

(** The salary tokens of a text, read from left to right: each the leftmost
    token after the one before, none overlapping; the list holds their
    digits. *)
Inductive Tokens (E : Env) : str -> list str -> Prop :=
| Tokens_nil s :
    (forall pre w post d, s = pre ++ w ++ post -> ~ salary_token E d w) ->
    Tokens E s []
| Tokens_cons pre w post d ds :
    salary_token E d w ->
    (forall a w' b d',
        pre ++ w ++ post = a ++ w' ++ b -> salary_token E d' w' ->
        length pre <= length a) ->
    Tokens E post ds ->
    Tokens E (pre ++ w ++ post) (d :: ds).

(** Between [lo] and [hi] decimal digits. *)
Definition digits (E : Env) (lo hi : nat) (w : str) : Prop :=
  forallb (isdecimal E) w = true /\ lo <= length w <= hi.

(** [hour:minute AM] or [hour:minute PM]. *)
Definition clock_token (E : Env) (t : str) : Prop :=
  exists h m ap,
    t = h ++ u ":" ++ m ++ u " " ++ [ap] ++ u "M" /\
    digits E 1 2 h /\ digits E 1 2 m /\ (ap = ch "A" \/ ap = ch "P").

(** A whole line made of some text, one or two spaces, and a clock time. *)
Definition header_parts (E : Env) (line name time : str) : Prop :=
  exists sep,
    line = name ++ sep ++ time /\
    name <> [] /\ forallb dot name = true /\
    (sep = u " " \/ sep = u "  ") /\
    clock_token E time.

Definition header_line (E : Env) (line : str) : Prop :=
  exists name time, header_parts E line name time.

(** A line feed, a capital letter and two more letters, a space, one or two
    digits, and perhaps a comma, a space and four digits. *)
Definition date_token (E : Env) (w : str) : Prop :=
  exists A bc dd yr,
    w = [Message.LF; A] ++ bc ++ u " " ++ dd ++ yr /\
    in_range "A" "Z" A = true /\
    forallb (fun c => in_range "A" "Z" c || in_range "a" "z" c) bc = true /\
    length bc = 2 /\
    digits E 1 2 dd /\
    (yr = [] \/ exists y, yr = u ", " ++ y /\ digits E 4 4 y).

Definition no_date (E : Env) (raw : str) : Prop :=
  forall pre w post, raw = pre ++ w ++ post -> ~ date_token E w.

(** The marker [sender_title] looks for. *)
Definition marker : str := u "· ".

(** ** Two readings the specification gives, to set against the code *)

(** The classification as the specification words it: autogenerated when
    the nickname is absent, otherwise exactly when the canary is there. *)
Definition autogenerated_by_nickname (raw : str) : bool :=
  if negb (contains (u "Gram") raw) then true
  else contains (u "OR 1 --") raw.

(** The time field as the specification words it: the hour, then the
    day-of-month code where the minutes code would be. *)
Definition time_field_day_of_month (t : time_t) : str :=
  time_strftime (u "%H:%d") t.

(** ** Blocks for the examples *)

Definition blockA : str := u "Jane Doe (She/Her)  3:45 PM
View Jane's profile
Jane Doe
1st degree connection · 1st
Recruiter at Mollie
Mar 5, 2023
Hi Nikita, we pay 80k to 120k, see www.example.com".

Definition blockB : str := u "bob 3:45 PM
Jan 5
hello".

(** ** Blocks of an archive *)

(** A text that neither starts nor ends with whitespace, and is not empty. *)
Definition trimmed (b : str) : Prop :=
  b <> [] /\ isspace (hd 0%N b) = false /\ isspace (last b 0%N) = false.

(** A block as [main] hands it to [Message]: trimmed, and without the
    separator in it. *)
Definition block (b : str) : Prop :=
  trimmed b /\ ~ occurs separator b.

(** [sep.join(l)] *)
Fixpoint join (sep : str) (l : list str) : str :=
  match l with
  | [] => []
  | [x] => x
  | x :: l' => x ++ sep ++ join sep l'
  end.

(** ** More tokens, and a second order of the set *)

(** What [has_email] looks for: some text, [@], some text, a dot and two or
    three small letters, all on one line. *)
Definition email_token (w : str) : Prop :=
  exists a b tld,
    w = a ++ u "@" ++ b ++ u "." ++ tld /\
    a <> [] /\ forallb dot a = true /\
    b <> [] /\ forallb dot b = true /\
    forallb (in_range "a" "z") tld = true /\ 2 <= length tld <= 3.

(** What follows the name in the header pattern:
    [ ?(\d{1,2}:\d{1,2} [AP]M)] after one space. *)
Definition header_tail (E : Env) : regex :=
  Cats [ Chr " "; Opt (Chr " ");
         Grp 2 (Cats [ Rep (isdecimal E) 1 (Some 2); Chr ":";
                       Rep (isdecimal E) 1 (Some 2);
                       Chr " "; Cls (Message.one_of "AP"); Chr "M" ]) ].

(** The environment of the examples, the set of companies visited in the
    opposite order. *)
Definition env_reversed : Env :=
  {| isdecimal := isdecimal Example.env;
     tolower_full := tolower_full Example.env;
     final_sigma := final_sigma Example.env;
     capitalize := capitalize Example.env;
     EMOJI_DATA := EMOJI_DATA Example.env;
     dateutil_parse := dateutil_parse Example.env;
     set_order := rev COMPANIES;
     tolower_full_ascii := tolower_full_ascii Example.env;
     set_order_perm := Permutation_sym (Permutation_rev COMPANIES) |}.

(** ** Tactics *)

Ltac inv H := inversion H; subst; clear H.

(** Takes apart a [Matches] hypothesis on a pattern given in full. *)
Ltac inv_matches :=
  repeat match goal with
         | H : Matches Eps _ _ _ |- _ => inv H
         | H : Matches (Cls _) _ _ _ |- _ => inv H
         | H : Matches (Cat _ _) _ _ _ |- _ => inv H
         | H : Matches (Alt _ _) _ _ _ |- _ => inv H
         | H : Matches (Rep _ _ _) _ _ _ |- _ => inv H
         | H : Matches (Grp _ _) _ _ _ |- _ => inv H
         end.

Ltac eqb_subst :=
  repeat match goal with
         | H : (_ =? _)%N = true |- _ => apply N.eqb_eq in H; subst
         end.

(** * Properties *)

(** ** Substrings *)

Lemma startswith_spec (hay needle : str) :
  startswith hay needle = true <-> exists post, hay = needle ++ post.
Proof.
  revert hay; induction needle as [|n needle IH]; intros hay; simpl.
  - split; [intros _; now exists hay | reflexivity].
  - destruct hay as [|h hay].
    + split; [discriminate | intros [post H]; discriminate].
    + rewrite andb_true_iff, N.eqb_eq, IH. split.
      * intros [-> [post ->]]. now exists post.
      * intros [post H]. injection H as -> ->. split; [reflexivity | now exists post].
Qed.

Lemma contains_spec (needle hay : str) :
  contains needle hay = true <-> occurs needle hay.
Proof.
  unfold occurs. induction hay as [|h hay IH].
  - simpl. rewrite orb_false_r, startswith_spec. split.
    + intros [post H]. now exists [], post.
    + intros [pre [post H]]. destruct pre; simpl in H.
      * now exists post.
      * discriminate.
  - cbn [contains]. rewrite orb_true_iff, IH, startswith_spec. split.
    + intros [[post H] | [pre [post H]]].
      * now exists [], post.
      * exists (h :: pre), post. now rewrite H.
    + intros [pre [post H]]. destruct pre as [|c pre]; simpl in H.
      * left. now exists post.
      * right. injection H as _ H. now exists pre, post.
Qed.

Lemma contains_false (needle hay : str) :
  contains needle hay = false <-> ~ occurs needle hay.
Proof.
  rewrite <- contains_spec. destruct (contains needle hay); split; congruence.
Qed.

(** ** The matcher is sound and complete for [Matches] *)

Lemma consumed_app (w s' : str) : consumed (w ++ s') s' = w.
Proof.
  unfold consumed. rewrite length_app.
  replace (length w + length s' - length s') with (length w) by lia.
  rewrite firstn_app, Nat.sub_diag, firstn_all. simpl. apply app_nil_r.
Qed.

Section EngineFacts.
Variable R : Type.

Lemma greedy_sound p lo hi s (k : str -> option R) x :
  greedy p lo hi s k = Some x ->
  exists w s', s = w ++ s' /\ forallb p w = true /\ lo <= length w /\
               within hi (length w) /\ k s' = Some x.
Proof.
  revert lo hi. induction s as [|c s IH]; intros lo hi H.
  - simpl in H. destruct lo; [|discriminate].
    exists [], []. repeat split; auto. destruct hi; simpl; lia.
  - assert (Hstop : (match lo with 0 => k (c :: s) | S _ => None end) = Some x ->
                    exists w s', c :: s = w ++ s' /\ forallb p w = true /\
                      lo <= length w /\ within hi (length w) /\ k s' = Some x).
    { destruct lo; [|discriminate]. intros Hk.
      exists [], (c :: s). repeat split; auto. destruct hi; simpl; lia. }
    cbn [greedy] in H.
    destruct (p c && more hi) eqn:Hc; [|auto].
    destruct (greedy p (pred lo) (option_map pred hi) s k) eqn:Hg; [|auto].
    injection H as ->. apply andb_true_iff in Hc as [Hp Hm].
    apply IH in Hg as (w & s' & -> & Hall & Hlo & Hhi & Hk).
    exists (c :: w), s'. simpl. rewrite Hp, Hall. repeat split; auto.
    + lia.
    + destruct hi as [[|h]|]; simpl in *; try discriminate; auto. lia.
Qed.

Lemma greedy_complete p lo hi w s' (k : str -> option R) :
  forallb p w = true -> lo <= length w -> within hi (length w) ->
  k s' <> None -> greedy p lo hi (w ++ s') k <> None.
Proof.
  revert lo hi. induction w as [|c w IH]; intros lo hi Hall Hlo Hhi Hk.
  - simpl in Hlo. assert (lo = 0) as -> by lia.
    destruct s' as [|c s']; [exact Hk|].
    cbn [app greedy]. destruct (p c && more hi); [|exact Hk].
    destruct (greedy p (pred 0) (option_map pred hi) s' k); [discriminate | exact Hk].
  - simpl in Hall. apply andb_true_iff in Hall as [Hp Hall].
    cbn [app greedy]. rewrite Hp.
    assert (Hm : more hi = true).
    { destruct hi as [[|h]|]; simpl in *; auto. lia. }
    rewrite Hm. simpl andb. cbv iota.
    assert (Hg : greedy p (pred lo) (option_map pred hi) (w ++ s') k <> None).
    { apply IH; auto.
      - simpl in Hlo. lia.
      - destruct hi as [h|]; simpl in *; auto. lia. }
    destruct (greedy p (pred lo) (option_map pred hi) (w ++ s') k);
      [discriminate | contradiction].
Qed.

Lemma exec_sound r : forall s g (k : str -> caps -> option R) x,
  exec r s g k = Some x ->
  exists w s' g', s = w ++ s' /\ Matches r w g g' /\ k s' g' = Some x.
Proof.
  induction r as [|p|r1 IH1 r2 IH2|r1 IH1 r2 IH2|p lo hi|i r IH];
    intros s g k x H; simpl in H.
  - exists [], s, g. repeat split; auto. constructor.
  - destruct s as [|c s]; [discriminate|].
    destruct (p c) eqn:Hp; [|discriminate].
    exists [c], s, g. repeat split; auto. now constructor.
  - apply IH1 in H as (w1 & s1 & g1 & -> & M1 & H).
    apply IH2 in H as (w2 & s2 & g2 & -> & M2 & H).
    exists (w1 ++ w2), s2, g2. rewrite app_assoc. repeat split; auto.
    econstructor; eauto.
  - destruct (exec r1 s g k) eqn:H1.
    + injection H as ->. apply IH1 in H1 as (w & s' & g' & -> & M & H).
      exists w, s', g'. repeat split; auto. now apply M_AltL.
    + apply IH2 in H as (w & s' & g' & -> & M & H).
      exists w, s', g'. repeat split; auto. now apply M_AltR.
  - apply greedy_sound in H as (w & s' & -> & Hall & Hlo & Hhi & H).
    exists w, s', g. repeat split; auto. now constructor.
  - apply IH in H as (w & s' & g' & -> & M & H).
    rewrite consumed_app in H.
    exists w, s', ((i, w) :: g'). repeat split; auto. now constructor.
Qed.

Lemma exec_complete r w g g' :
  Matches r w g g' ->
  forall s' (k : str -> caps -> option R),
    k s' g' <> None -> exec r (w ++ s') g k <> None.
Proof.
  induction 1 as [g|p c g Hp|r1 r2 w1 w2 g g1 g2 M1 IH1 M2 IH2
                 |r1 r2 w g g' M IH|r1 r2 w g g' M IH
                 |p lo hi w g Hall Hlo Hhi|i r w g g' M IH];
    intros s' k Hk; simpl.
  - exact Hk.
  - now rewrite Hp.
  - rewrite <- app_assoc. apply IH1. now apply IH2.
  - specialize (IH s' k Hk). destruct (exec r1 (w ++ s') g k); congruence.
  - destruct (exec r1 (w ++ s') g k); [discriminate | now apply IH].
  - now apply greedy_complete.
  - apply IH. now rewrite consumed_app.
Qed.
End EngineFacts.

(** ** [match], [fullmatch], [search] and [finditer] *)

Lemma match_at_sound r s m :
  match_at r s = Some m ->
  s = whole m ++ rest_after m /\ Matches r (whole m) [] (groups m).
Proof.
  unfold match_at. intros H.
  apply exec_sound in H as (w & s' & g' & -> & M & H).
  injection H as <-. simpl. rewrite consumed_app. now split.
Qed.

Lemma match_at_complete r w g' s' :
  Matches r w [] g' -> match_at r (w ++ s') <> None.
Proof.
  intros M. unfold match_at. eapply exec_complete; eauto. discriminate.
Qed.

Lemma fullmatch_sound r s m :
  fullmatch r s = Some m ->
  whole m = s /\ rest_after m = [] /\ Matches r s [] (groups m).
Proof.
  unfold fullmatch. intros H.
  apply exec_sound in H as (w & s' & g' & -> & M & H).
  destruct s'; [|discriminate]. injection H as <-. simpl.
  rewrite app_nil_r. auto.
Qed.

Lemma fullmatch_complete r s g' :
  Matches r s [] g' -> fullmatch r s <> None.
Proof.
  intros M. unfold fullmatch. rewrite <- (app_nil_r s) at 1.
  eapply exec_complete; eauto. discriminate.
Qed.

Lemma search_sound r s m :
  search r s = Some m ->
  exists pre, s = pre ++ whole m ++ rest_after m /\
              Matches r (whole m) [] (groups m).
Proof.
  induction s as [|c s IH]; cbn [search]; intros H.
  - destruct (match_at r []) eqn:Hm; [|discriminate]. injection H as ->.
    apply match_at_sound in Hm as [Hs M]. now exists [].
  - destruct (match_at r (c :: s)) eqn:Hm.
    + injection H as ->. apply match_at_sound in Hm as [Hs M]. now exists [].
    + apply IH in H as [pre [-> M]]. now exists (c :: pre).
Qed.

Lemma search_complete r pre w post g' :
  Matches r w [] g' -> search r (pre ++ w ++ post) <> None.
Proof.
  intros M. induction pre as [|c pre IH].
  - simpl. pose proof (match_at_complete post M) as Hm.
    destruct (w ++ post); simpl; destruct (match_at r _); congruence.
  - cbn [app search]. destruct (match_at r _); [discriminate | exact IH].
Qed.

(** [search] finds nothing exactly when no part of the text matches. *)
Lemma search_none r s :
  search r s = None <->
  (forall pre w post g', s = pre ++ w ++ post -> ~ Matches r w [] g').
Proof.
  split.
  - intros H pre w post g' -> M. now apply (search_complete pre post M).
  - intros H. destruct (search r s) as [m|] eqn:Hs; [|reflexivity].
    apply search_sound in Hs as [pre [Hs M]]. exfalso. eapply H; eauto.
Qed.

Lemma finditer_from_sound r : forall s skip,
  Forall (fun m => Matches r (whole m) [] (groups m)) (finditer_from r skip s).
Proof.
  induction s as [|c s IH]; intros skip; cbn [finditer_from]; [constructor|].
  destruct skip as [|n]; [|apply IH].
  destruct (match_at r (c :: s)) eqn:Hm; [|apply IH].
  constructor; [|apply IH]. now apply match_at_sound in Hm.
Qed.

(** Every match [finditer] yields lies in the text. *)
Lemma finditer_from_occurs r : forall s skip,
  Forall (fun m => occurs (whole m) s) (finditer_from r skip s).
Proof.
  induction s as [|c s IH]; intros skip; cbn [finditer_from]; [constructor|].
  assert (Hweak : forall n, Forall (fun m => occurs (whole m) (c :: s))
                                   (finditer_from r n s)).
  { intros n. eapply Forall_impl; [|apply IH].
    intros m [a [b ->]]. now exists (c :: a), b. }
  destruct skip as [|n]; [|apply Hweak].
  destruct (match_at r (c :: s)) eqn:Hm; [|apply Hweak].
  constructor; [|apply Hweak].
  apply match_at_sound in Hm as [Hs _]. exists [], (rest_after r0). exact Hs.
Qed.

(** For a pattern that cannot match the empty word, [finditer] is empty
    exactly when no part of the text matches. *)
Lemma finditer_nonempty r pre w post g' :
  w <> [] -> Matches r w [] g' -> finditer r (pre ++ w ++ post) <> [].
Proof.
  intros Hw M. unfold finditer. induction pre as [|c pre IH].
  - pose proof (match_at_complete post M) as Hm. simpl.
    destruct w as [|c w]; [contradiction|]. cbn [app finditer_from] in *.
    destruct (match_at r _); [discriminate | contradiction].
  - cbn [app finditer_from]. destruct (match_at r _); [discriminate | exact IH].
Qed.

Lemma finditer_nil r s :
  (forall g', ~ Matches r [] [] g') ->
  finditer r s = [] <->
  (forall pre w post g', s = pre ++ w ++ post -> ~ Matches r w [] g').
Proof.
  intros Hne. split.
  - intros H pre w post g' -> M.
    apply (finditer_nonempty pre post) in M; [contradiction|].
    intros ->. now apply (Hne g').
  - intros H. destruct (finditer r s) as [|m ms] eqn:Hf; [reflexivity|].
    pose proof (finditer_from_sound r s 0) as Hs.
    pose proof (finditer_from_occurs r s 0) as Ho.
    unfold finditer in Hf. rewrite Hf in Hs, Ho.
    inversion Hs as [|? ? M _]; subst. inversion Ho as [|? ? [a [b O]] _]; subst.
    exfalso. eapply H; eauto.
Qed.

Lemma finditer_from_skip r : forall s n,
  finditer_from r n s = finditer_from r 0 (skipn n s).
Proof.
  induction s as [|c s IH]; intros n.
  - now destruct n.
  - destruct n as [|n]; [reflexivity|]. cbn [finditer_from skipn]. apply IH.
Qed.

Lemma finditer_step r s m :
  match_at r s = Some m -> whole m <> [] ->
  finditer r s = m :: finditer r (rest_after m).
Proof.
  intros Hm Hne. pose proof (match_at_sound _ _ Hm) as [Hs _].
  destruct (whole m) as [|c w] eqn:Hw; [contradiction|].
  unfold finditer. rewrite Hs at 1. cbn [app finditer_from].
  assert (Hm' : match_at r (c :: w ++ rest_after m) = Some m)
    by (rewrite <- Hm; f_equal; exact (eq_sym Hs)).
  rewrite Hm', Hw. cbn [length pred]. f_equal.
  rewrite finditer_from_skip. f_equal.
  rewrite skipn_app, Nat.sub_diag, skipn_all. reflexivity.
Qed.

Lemma finditer_next r c s :
  match_at r (c :: s) = None -> finditer r (c :: s) = finditer r s.
Proof. unfold finditer. cbn [finditer_from]. now intros ->. Qed.

Lemma Scanned_next r c s ms :
  match_at r (c :: s) = None -> Scanned r s ms -> Scanned r (c :: s) ms.
Proof.
  intros Hnone H. inversion H as [s0 Hno|pre m ms' M Hleft Hrest]; subst.
  - apply Scanned_nil. intros pre w post g Hs M.
    destruct pre as [|c' pre]; simpl in Hs.
    + apply (match_at_complete post) in M. rewrite <- Hs in M. contradiction.
    + injection Hs as _ Hs. now apply (Hno pre w post g).
  - change (c :: pre ++ whole m ++ rest_after m)
      with ((c :: pre) ++ whole m ++ rest_after m).
    apply Scanned_cons; auto.
    intros a w b g Hs Mw. destruct a as [|c' a]; simpl in Hs.
    + apply (match_at_complete b) in Mw. rewrite <- Hs in Mw. contradiction.
    + injection Hs as _ Hs. simpl. apply le_n_S. now apply (Hleft a w b g).
Qed.

Lemma finditer_scanned r :
  (forall g, ~ Matches r [] [] g) ->
  forall s, Scanned r s (finditer r s).
Proof.
  intros Hne s. remember (length s) as n eqn:Hn. revert s Hn.
  induction n as [n IH] using lt_wf_ind. intros s Hn.
  destruct s as [|c s].
  - apply Scanned_nil. intros pre w post g Hs M.
    destruct pre; [|discriminate]. destruct w; [|discriminate].
    now apply (Hne g).
  - destruct (match_at r (c :: s)) as [m|] eqn:Hm.
    + pose proof (match_at_sound _ _ Hm) as [Hs M].
      assert (Hw : whole m <> []) by (intros Hw; rewrite Hw in M; exact (Hne _ M)).
      rewrite (@finditer_step _ _ _ Hm Hw), Hs.
      apply (@Scanned_cons r [] m (finditer r (rest_after m))); auto.
      * intros; simpl; lia.
      * apply (IH (length (rest_after m))); [|reflexivity].
        subst n. rewrite Hs, length_app.
        destruct (whole m); [contradiction | simpl; lia].
    + rewrite (@finditer_next _ _ _ Hm). apply Scanned_next; [exact Hm|].
      apply (IH (length s)); [subst n; simpl; lia | reflexivity].
Qed.

(** ** The patterns of the source, read as tokens *)

Lemma one_of_inv set c :
  Message.one_of set c = true -> In c (u set).
Proof.
  unfold Message.one_of. rewrite existsb_exists.
  intros [x [Hin Hx]]. apply N.eqb_eq in Hx. now subst.
Qed.

Lemma salary_rex_inv E w g :
  Matches (Message.salary_rex E) w [] g ->
  exists digits unit,
    g = [(2, unit); (1, digits)] /\ salary_token E digits w.
Proof.
  unfold Message.salary_rex, Cats, Opt, Chr. intros H.
  inv_matches;
    repeat match goal with
           | H : (_ =? _)%N = true |- _ => apply N.eqb_eq in H; subst
           | H : Message.one_of _ _ = true |- _ =>
               apply one_of_inv in H; vm_compute in H;
               destruct H as [<- | [<- | []]]
           end;
    eexists _, _; (split; [reflexivity|]);
    unfold salary_token; eexists _, _;
      (split; [reflexivity|]); simpl in *;
      repeat split; auto; vm_compute; auto.
Qed.

Lemma salary_rex_complete E sign digits unit :
  (sign = [] \/ sign = u "€" \/ sign = u "£") ->
  forallb (isdecimal E) digits = true ->
  2 <= length digits <= 3 ->
  (unit = u "k" \/ unit = u "K" \/ unit = u ",000") ->
  Matches (Message.salary_rex E) (sign ++ digits ++ unit) []
          [(2, unit); (1, digits)].
Proof.
  intros Hs Hd Hl Hu. unfold Message.salary_rex, Cats.
  apply M_Cat with (g1 := []).
  - destruct Hs as [-> | [-> | ->]].
    + apply M_AltR. constructor.
    + apply M_AltL. now constructor.
    + apply M_AltL. now constructor.
  - apply M_Cat with (g1 := [(1, digits)]).
    + apply M_Grp. constructor; simpl; auto; lia.
    + apply M_Grp. destruct Hu as [-> | [-> | ->]].
      * apply M_AltL. now constructor.
      * apply M_AltR, M_AltL. now constructor.
      * apply M_AltR, M_AltR.
        change (u ",000") with ([ch ","] ++ [ch "0"] ++ [ch "0"] ++ [ch "0"]).
        repeat (apply M_Cat with (g1 := [(1, digits)])); now constructor.
Qed.

Lemma salary_token_matches E d w :
  salary_token E d w -> exists g, Matches (Message.salary_rex E) w [] g.
Proof.
  intros (sign & unit & -> & Hs & Hd & Hl & Hu).
  eexists. now apply salary_rex_complete.
Qed.

Lemma salary_rex_nonempty E g : ~ Matches (Message.salary_rex E) [] [] g.
Proof.
  intros M. apply salary_rex_inv in M as (d & unit & _ & T).
  destruct T as (sign & unit' & Hw & _ & _ & Hl & _).
  destruct sign; [|discriminate]. destruct d; [simpl in Hl; lia | discriminate].
Qed.

Lemma name_time_rex_inv E line g :
  Matches (Message.name_time_rex E) line [] g ->
  exists name time,
    g = [(2, time); (1, name)] /\ header_parts E line name time.
Proof.
  unfold Message.name_time_rex, Cats, Opt, Chr. intros H.
  inv_matches; eqb_subst;
    match goal with
    | H : Message.one_of _ _ = true |- _ =>
        apply one_of_inv in H; vm_compute in H;
        destruct H as [<- | [<- | []]]
    end;
    (eexists _, _; split; [reflexivity|]);
    unfold header_parts, clock_token, digits;
    match goal with
    | |- exists sep, _ ++ [?a] ++ [?b] ++ _ = _ /\ _ => exists [a; b]
    | |- exists sep, _ ++ [?a] ++ [] ++ _ = _ /\ _ => exists [a]
    end;
    (repeat split; auto;
     [ intros ->; simpl in *; lia
     | eexists _, _, _; repeat split; eauto;
       try (left; reflexivity); try (right; reflexivity) ]).
Qed.

Lemma name_time_rex_complete E line name time :
  header_parts E line name time ->
  Matches (Message.name_time_rex E) line [] [(2, time); (1, name)].
Proof.
  intros (sep & -> & Hne & Hdot & Hsep & h & m & ap & -> & [Hh Hhl] & [Hm Hml] & Hap).
  unfold Message.name_time_rex, Cats.
  apply M_Cat with (g1 := [(1, name)]).
  { apply M_Grp. constructor; simpl; auto.
    destruct name; [contradiction | simpl; lia]. }
  assert (Htime : Matches
            (Grp 2 (Cat (Rep (isdecimal E) 1 (Some 2))
                   (Cat (Chr ":") (Cat (Rep (isdecimal E) 1 (Some 2))
                   (Cat (Chr " ") (Cat (Cls (Message.one_of "AP")) (Chr "M")))))))
            (h ++ u ":" ++ m ++ u " " ++ [ap] ++ u "M")
            [(1, name)]
            [(2, h ++ u ":" ++ m ++ u " " ++ [ap] ++ u "M"); (1, name)]).
  { apply M_Grp.
    apply M_Cat with (g1 := [(1, name)]); [constructor; simpl; auto; lia|].
    apply M_Cat with (g1 := [(1, name)]); [now constructor|].
    apply M_Cat with (g1 := [(1, name)]); [constructor; simpl; auto; lia|].
    apply M_Cat with (g1 := [(1, name)]); [now constructor|].
    apply M_Cat with (g1 := [(1, name)]); [|now constructor].
    constructor. destruct Hap as [-> | ->]; reflexivity. }
  destruct Hsep as [-> | ->].
  - change (u " ") with ([ch " "] ++ []).
    rewrite <- app_assoc.
    apply M_Cat with (g1 := [(1, name)]); [now constructor|].
    apply M_Cat with (g1 := [(1, name)]); [apply M_AltR; constructor | exact Htime].
  - change (u "  ") with ([ch " "] ++ [ch " "]).
    rewrite <- app_assoc.
    apply M_Cat with (g1 := [(1, name)]); [now constructor|].
    apply M_Cat with (g1 := [(1, name)]); [apply M_AltL; now constructor | exact Htime].
Qed.

Lemma date_rex_inv E w g :
  Matches (Message.date_rex E) w [] g -> date_token E w.
Proof.
  unfold Message.date_rex, Cats, Opt, Chr. intros H.
  inv_matches; eqb_subst; unfold date_token, digits.
  - match goal with
    | |- exists A bc dd yr, [_] ++ ?a ++ ?b ++ [_] ++ ?d ++ [_] ++ [_] ++ ?y = _ /\ _ =>
        destruct a as [|A [|? ?]]; try (simpl in *; lia);
        exists A, b, d, (u ", " ++ y)
    end.
    simpl in *. repeat split; auto; try lia.
    + now rewrite andb_true_r in *.
    + right. eexists. repeat split; eauto.
  - match goal with
    | |- exists A bc dd yr, [_] ++ ?a ++ ?b ++ [_] ++ ?d ++ [] = _ /\ _ =>
        destruct a as [|A [|? ?]]; try (simpl in *; lia);
        exists A, b, d, []
    end.
    simpl in *. repeat split; auto; try lia.
    now rewrite andb_true_r in *.
Qed.

Lemma date_rex_complete E w :
  date_token E w -> exists g, Matches (Message.date_rex E) w [] g.
Proof.
  intros (A & bc & dd & yr & -> & HA & Hbc & Hlen & [Hd Hdl] & Hyr).
  unfold Message.date_rex, Cats.
  assert (Hyear : exists g, Matches
            (Opt (Grp 1 (Cat (Chr ",") (Cat (Chr " ") (Rep (isdecimal E) 4 (Some 4))))))
            yr [] g).
  { destruct Hyr as [-> | (y & -> & Hy & Hyl)].
    - eexists. apply M_AltR. constructor.
    - eexists. apply M_AltL, M_Grp.
      change (u ", " ++ y) with ([ch ","] ++ [ch " "] ++ y).
      apply M_Cat with (g1 := []); [now constructor|].
      apply M_Cat with (g1 := []); [now constructor|].
      constructor; simpl; auto; lia. }
  destruct Hyear as [g Hyear]. exists g.
  change ([Message.LF; A] ++ bc ++ u " " ++ dd ++ yr)
    with ([Message.LF] ++ [A] ++ bc ++ [ch " "] ++ dd ++ yr).
  apply M_Cat with (g1 := []); [now constructor|].
  apply M_Cat with (g1 := []).
  { constructor; simpl; auto. now rewrite HA. }
  apply M_Cat with (g1 := []).
  { constructor; simpl; auto; lia. }
  apply M_Cat with (g1 := []); [now constructor|].
  apply M_Cat with (g1 := []); [|exact Hyear].
  constructor; simpl; auto; lia.
Qed.

Lemma fullmatch_header E line m :
  fullmatch (Message.name_time_rex E) line = Some m ->
  header_parts E line (group 1 m) (group 2 m).
Proof.
  intros H. apply fullmatch_sound in H as (_ & _ & M).
  apply name_time_rex_inv in M as (name & time & Hg & Hp).
  unfold group. now rewrite Hg.
Qed.

Lemma fullmatch_no_header E line :
  fullmatch (Message.name_time_rex E) line = None <-> ~ header_line E line.
Proof.
  split.
  - intros H (name & time & Hp).
    now apply name_time_rex_complete, fullmatch_complete in Hp.
  - intros H. destruct (fullmatch _ line) as [m|] eqn:Hm; [|reflexivity].
    exfalso. apply H. exists (group 1 m), (group 2 m).
    now apply fullmatch_header.
Qed.

Lemma search_date_none E raw :
  search (Message.date_rex E) raw = None <-> no_date E raw.
Proof.
  rewrite search_none. unfold no_date. split.
  - intros H pre w post Hs T. apply date_rex_complete in T as [g M].
    now apply (H pre w post g).
  - intros H pre w post g Hs M. apply date_rex_inv in M.
    now apply (H pre w post).
Qed.

Lemma search_date_some E raw m :
  search (Message.date_rex E) raw = Some m ->
  occurs (whole m) raw /\ date_token E (whole m).
Proof.
  intros H. apply search_sound in H as (pre & Hs & M). split.
  - now exists pre, (rest_after m).
  - now apply date_rex_inv in M.
Qed.

(** ** [has_name], [read_cv], [autogenerated], [has_url] *)

(** C1, as stated, fails: a block greeting by first name only, without the
    nickname and without the canary, is not classified as autogenerated,
    although the nickname is absent from it. *)
Lemma autogenerated_first_name_only :
  contains (u "Gram") (u "Hello Nikita, are you free?") = false /\
  autogenerated_by_nickname (u "Hello Nikita, are you free?") = true /\
  Message.autogenerated (u "Hello Nikita, are you free?") = false.
Proof. repeat split; reflexivity. Qed.

(** C1 (amended): [autogenerated] is false whenever the nickname ['Gram']
    occurs; when it does not, [autogenerated] is true if the first name
    ['Nikita'] is absent too, and otherwise (first name present, nickname
    absent) it is true exactly when the canary ['OR 1 --'] occurs. *)
Theorem autogenerated_cases (raw : str) :
  (occurs (u "Gram") raw -> Message.autogenerated raw = false) /\
  (~ occurs (u "Gram") raw -> ~ occurs (u "Nikita") raw ->
   Message.autogenerated raw = true) /\
  (~ occurs (u "Gram") raw -> occurs (u "Nikita") raw ->
   (Message.autogenerated raw = true <-> occurs (u "OR 1 --") raw)).
Proof.
  unfold Message.autogenerated. repeat split.
  - intros H. apply contains_spec in H. now rewrite H.
  - intros HG HN. apply contains_false in HG, HN. now rewrite HG, HN.
  - apply contains_false in H. apply contains_spec in H0.
    rewrite H, H0. simpl. apply contains_spec.
  - apply contains_false in H. apply contains_spec in H0.
    rewrite H, H0. simpl. apply contains_spec.
Qed.

(** C9: a block for which [read_cv] holds contains ['Gram'], and then
    [has_name] holds and [autogenerated] does not. *)
Theorem read_cv_implies (raw : str) :
  Message.read_cv raw = true ->
  occurs (u "Gram") raw /\
  Message.has_name raw = true /\
  Message.autogenerated raw = false.
Proof.
  unfold Message.read_cv, Message.has_name, Message.autogenerated.
  intros H. rewrite H. split; [now apply contains_spec | split; reflexivity].
Qed.

(** The statement of C9 at a block that names the nickname. *)
Lemma read_cv_implies_witness :
  occurs (u "Gram") (u "Dear Gram, I have read your CV") /\
  Message.has_name (u "Dear Gram, I have read your CV") = true /\
  Message.autogenerated (u "Dear Gram, I have read your CV") = false.
Proof.
  apply (read_cv_implies (u "Dear Gram, I have read your CV")).
  reflexivity.
Defined.

Lemma has_url_default raw :
  ~ occurs (u "https://") raw -> ~ occurs (u "www.") raw ->
  Message.has_url raw = false.
Proof.
  intros H1 H2. apply contains_false in H1, H2.
  unfold Message.has_url. now rewrite H1, H2.
Qed.

(** C8: [has_url] holds exactly when ['https://'] or ['www.'] occurs in the
    block; so it holds for a block containing ['www.example.com'], for one
    containing ['https://x'], and fails for a block with neither marker. *)
Theorem has_url_iff (raw : str) :
  (Message.has_url raw = true <->
   occurs (u "https://") raw \/ occurs (u "www.") raw) /\
  (occurs (u "www.example.com") raw -> Message.has_url raw = true) /\
  (occurs (u "https://x") raw -> Message.has_url raw = true) /\
  (~ occurs (u "https://") raw -> ~ occurs (u "www.") raw ->
   Message.has_url raw = false).
Proof.
  assert (Hiff : Message.has_url raw = true <->
                 occurs (u "https://") raw \/ occurs (u "www.") raw).
  { unfold Message.has_url. now rewrite orb_true_iff, !contains_spec. }
  split; [exact Hiff|]. repeat split.
  - intros [pre [post ->]]. apply Hiff. right.
    exists pre, (u "example.com" ++ post). reflexivity.
  - intros [pre [post ->]]. apply Hiff. left.
    exists pre, (u "x" ++ post). reflexivity.
  - apply has_url_default.
Qed.

(** ** [sender_pronouns] *)

(** A capital sigma is lowered by what surrounds it, so [lower] does not
    distribute over concatenation; the text lowered so far is still a prefix
    of the result. *)
Lemma lower_from_prefix E : forall pre before rest,
  exists done,
    lower_from E before (pre ++ rest) =
    done ++ lower_from E (before ++ pre) rest.
Proof.
  induction pre as [|c pre IH]; intros before rest.
  - exists []. now rewrite app_nil_r.
  - destruct (IH (before ++ [c]) rest) as [done' Hd].
    cbn [app lower_from]. rewrite Hd, <- !app_assoc.
    eexists. rewrite app_assoc. reflexivity.
Qed.

(** Lower-casing leaves a run of ASCII characters without capitals as it
    is. *)
Lemma lower_from_plain E : forall w before rest,
  forallb (fun c => (c <? 128)%N && (ascii_lower c =? c)%N) w = true ->
  lower_from E before (w ++ rest) = w ++ lower_from E (before ++ w) rest.
Proof.
  induction w as [|c w IH]; intros before rest H.
  - now rewrite app_nil_r.
  - simpl in H. apply andb_true_iff in H as [Hc Hw].
    apply andb_true_iff in Hc as [Hlt Hfix].
    apply N.ltb_lt in Hlt. apply N.eqb_eq in Hfix.
    assert (Hs : (c =? 931)%N = false) by (apply N.eqb_neq; lia).
    cbn [app lower_from].
    rewrite Hs, (tolower_full_ascii E) by exact Hlt.
    rewrite Hfix, IH, <- !app_assoc by exact Hw. reflexivity.
Qed.

Lemma lower_keeps_plain E (w raw : str) :
  forallb (fun c => (c <? 128)%N && (ascii_lower c =? c)%N) w = true ->
  occurs w raw -> occurs w (lower E raw).
Proof.
  intros Hw [pre [post ->]]. unfold lower.
  destruct (lower_from_prefix E pre [] (w ++ post)) as [done' ->].
  rewrite (lower_from_plain E _ _ _ Hw). now eexists _, _.
Qed.

Lemma sender_pronouns_default E raw :
  ~ occurs (u "she/") (lower E raw) -> ~ occurs (u "he/") (lower E raw) ->
  ~ occurs (u "they/") (lower E raw) ->
  Message.sender_pronouns E raw = u "".
Proof.
  intros H1 H2 H3. apply contains_false in H1, H2, H3.
  unfold Message.sender_pronouns. now rewrite H1, H2, H3.
Qed.

(** C6: [sender_pronouns] lower-cases the block and answers ['she'] if
    ['she/'] occurs in it, else ['he'] if ['he/'] occurs, else ['they'] if
    ['they/'] occurs, else the empty string; a block containing both
    ['she/her'] and ['he/him'] yields ['she']. *)
Theorem sender_pronouns_priority (E : Env) (raw : str) :
  (occurs (u "she/") (lower E raw) ->
   Message.sender_pronouns E raw = u "she") /\
  (~ occurs (u "she/") (lower E raw) -> occurs (u "he/") (lower E raw) ->
   Message.sender_pronouns E raw = u "he") /\
  (~ occurs (u "she/") (lower E raw) -> ~ occurs (u "he/") (lower E raw) ->
   occurs (u "they/") (lower E raw) ->
   Message.sender_pronouns E raw = u "they") /\
  (~ occurs (u "she/") (lower E raw) -> ~ occurs (u "he/") (lower E raw) ->
   ~ occurs (u "they/") (lower E raw) ->
   Message.sender_pronouns E raw = u "") /\
  (occurs (u "she/her") raw -> occurs (u "he/him") raw ->
   Message.sender_pronouns E raw = u "she").
Proof.
  assert (Hshe : occurs (u "she/") (lower E raw) ->
                 Message.sender_pronouns E raw = u "she").
  { intros H. unfold Message.sender_pronouns.
    apply contains_spec in H. now rewrite H. }
  unfold Message.sender_pronouns. repeat split.
  - exact Hshe.
  - intros H1 H2. apply contains_false in H1. apply contains_spec in H2.
    now rewrite H1, H2.
  - intros H1 H2 H3. apply contains_false in H1, H2. apply contains_spec in H3.
    now rewrite H1, H2, H3.
  - apply sender_pronouns_default.
  - intros [pre [post ->]] _. apply Hshe.
    apply lower_keeps_plain; [reflexivity|].
    exists pre, (u "her" ++ post). reflexivity.
Qed.

(** ** [sender_title] *)

Lemma sender_title_loop_skip : forall pre lines,
  Forall (fun l => ~ occurs marker l) pre ->
  Message.sender_title_loop false (pre ++ lines) =
  Message.sender_title_loop false lines.
Proof.
  induction pre as [|l pre IH]; intros lines H; [reflexivity|].
  inversion H as [|? ? Hl Hpre]; subst. cbn [app Message.sender_title_loop].
  apply contains_false in Hl. unfold marker in Hl. rewrite Hl. now apply IH.
Qed.

Lemma sender_title_default raw :
  Forall (fun l => ~ occurs marker l) (splitlines raw) ->
  Message.sender_title raw = u "".
Proof.
  intros H. unfold Message.sender_title.
  rewrite <- (app_nil_r (splitlines raw)). now rewrite sender_title_loop_skip.
Qed.

(** C7: [sender_title] is the line right after the first line containing
    ['· '], as it stands; it is empty when no line contains the marker, and
    when the first line that does is the last line of the block. *)
Theorem sender_title_next_line (raw : str) :
  (forall pre m next post,
      splitlines raw = pre ++ m :: next :: post ->
      Forall (fun l => ~ occurs marker l) pre -> occurs marker m ->
      Message.sender_title raw = next) /\
  (Forall (fun l => ~ occurs marker l) (splitlines raw) ->
   Message.sender_title raw = u "") /\
  (forall pre m,
      splitlines raw = pre ++ [m] ->
      Forall (fun l => ~ occurs marker l) pre -> occurs marker m ->
      Message.sender_title raw = u "").
Proof.
  unfold Message.sender_title. repeat split.
  - intros pre m next post -> Hpre Hm. rewrite sender_title_loop_skip by exact Hpre.
    cbn [Message.sender_title_loop]. apply contains_spec in Hm.
    unfold marker in Hm. now rewrite Hm.
  - apply sender_title_default.
  - intros pre m -> Hpre Hm. rewrite sender_title_loop_skip by exact Hpre.
    cbn [Message.sender_title_loop]. apply contains_spec in Hm.
    unfold marker in Hm. now rewrite Hm.
Qed.

(** ** [salary] *)

Lemma Scanned_tokens E s ms :
  Scanned (Message.salary_rex E) s ms -> Tokens E s (map (group 1) ms).
Proof.
  induction 1 as [s Hno|pre m ms M Hleft Hrest IH].
  - apply Tokens_nil. intros pre w post d Hs T.
    apply salary_token_matches in T as [g M]. now apply (Hno pre w post g).
  - apply salary_rex_inv in M as (d & unit & Hg & T).
    cbn [map]. replace (group 1 m) with d by (unfold group; now rewrite Hg).
    apply Tokens_cons; auto.
    intros a w' b d' Hs T'. apply salary_token_matches in T' as [g M'].
    now apply (Hleft a w' b g).
Qed.

Lemma salary_matches_tokens E raw : Tokens E raw (Message.salary_matches E raw).
Proof.
  apply Scanned_tokens, finditer_scanned. apply salary_rex_nonempty.
Qed.

Lemma Tokens_digits E s ds :
  Tokens E s ds ->
  Forall (fun d => 2 <= length d <= 3 /\ forallb (isdecimal E) d = true) ds.
Proof.
  induction 1 as [|pre w post d ds T _ _ IH]; constructor; auto.
  destruct T as (sign & unit & _ & _ & Hd & Hl & _). auto.
Qed.

(** [len(set(l)) == 1]: [l] is not empty and its elements are all the same. *)
Lemma distinct_one (l : list str) :
  Message.distinct l = 1 <->
  l <> [] /\ (forall a b, In a l -> In b l -> a = b).
Proof.
  unfold Message.distinct. split.
  - intros H. split; [intros ->; discriminate|].
    destruct (nodup str_eq_dec l) as [|v [|v' t]] eqn:Hn; try discriminate.
    assert (Hv : forall a, In a l -> a = v).
    { intros a Ha. apply (nodup_In str_eq_dec) in Ha. rewrite Hn in Ha.
      destruct Ha as [<- | []]. reflexivity. }
    intros a b Ha Hb. now rewrite (Hv a Ha), (Hv b Hb).
  - intros [Hne Hall]. induction l as [|v l IH]; [contradiction|].
    cbn [nodup]. destruct (in_dec str_eq_dec v l) as [Hin|Hout].
    + apply IH.
      * intros ->. contradiction.
      * intros a b Ha Hb. apply Hall; now right.
    + destruct l as [|v' l]; [reflexivity|].
      exfalso. apply Hout. left. apply Hall; simpl; auto.
Qed.

Lemma salary_default E raw :
  (forall pre w post d, raw = pre ++ w ++ post -> ~ salary_token E d w) ->
  Message.salary E raw = (u "", u "").
Proof.
  intros Hno. pose proof (salary_matches_tokens E raw) as T.
  unfold Message.salary.
  inversion T as [s Hnone Hs Hms|pre w post d ds Tw _ _ Hs Hms].
  - reflexivity.
  - exfalso. subst raw. now apply (Hno pre w post d).
Qed.

Lemma salary_all_same E raw v :
  In v (Message.salary_matches E raw) ->
  (forall m, In m (Message.salary_matches E raw) -> m = v) ->
  Message.salary E raw = (u "", v).
Proof.
  intros Hin Hall. unfold Message.salary.
  destruct (Message.salary_matches E raw) as [|m0 ms] eqn:Hm; [contradiction|].
  assert (H1 : Message.distinct (m0 :: ms) = 1).
  { apply distinct_one. split; [discriminate|].
    intros a b Ha Hb. now rewrite (Hall a Ha), (Hall b Hb). }
  rewrite H1. simpl. f_equal. apply Hall. now left.
Qed.

Lemma salary_two_values E raw :
  Message.salary_matches E raw <> [] ->
  ~ (forall a b, In a (Message.salary_matches E raw) ->
                 In b (Message.salary_matches E raw) -> a = b) ->
  exists a b rest,
    Message.salary_matches E raw = a :: b :: rest /\
    Message.salary E raw = (a, b).
Proof.
  intros Hne Hdiff. unfold Message.salary.
  destruct (Message.salary_matches E raw) as [|a ms] eqn:Hm; [contradiction|].
  destruct (Nat.eqb (Message.distinct (a :: ms)) 1) eqn:Hd.
  - apply Nat.eqb_eq, distinct_one in Hd. tauto.
  - destruct ms as [|b rest].
    + exfalso. apply Hdiff. intros x y [<- | []] [<- | []]. reflexivity.
    + exists a, b, rest. split; reflexivity.
Qed.

(** C2: the salary extractor collects the digits of every salary token
    (optional [€] or [£], two or three digits, then [k], [K] or [,000]) from
    left to right; with no token the pair is [('', '')]; when all the
    collected values are one and the same, the pair is [('', value)];
    otherwise it is the first two collected values, in the order they stand
    in the text. *)
Theorem salary_policy (E : Env) (raw : str) :
  Tokens E raw (Message.salary_matches E raw) /\
  ((forall pre w post d, raw = pre ++ w ++ post -> ~ salary_token E d w) ->
   Message.salary E raw = (u "", u "")) /\
  (forall v,
      In v (Message.salary_matches E raw) ->
      (forall m, In m (Message.salary_matches E raw) -> m = v) ->
      Message.salary E raw = (u "", v)) /\
  (Message.salary_matches E raw <> [] ->
   ~ (forall a b, In a (Message.salary_matches E raw) ->
                  In b (Message.salary_matches E raw) -> a = b) ->
   exists a b rest,
     Message.salary_matches E raw = a :: b :: rest /\
     Message.salary E raw = (a, b)).
Proof.
  split; [apply salary_matches_tokens|]. split; [|split].
  - apply salary_default.
  - intros v. apply salary_all_same.
  - apply salary_two_values.
Qed.

Example salary_same_token_twice :
  Message.salary Example.env (u "We pay 120k. Yes, 120k!") = (u "", u "120").
Proof. reflexivity. Qed.

Example salary_two_tokens :
  Message.salary Example.env (u "between 80k and 120k") = (u "80", u "120").
Proof. reflexivity. Qed.

Example salary_not_sorted :
  Message.salary Example.env (u "up to €120,000 (from £95K)") = (u "120", u "95").
Proof. reflexivity. Qed.

Example salary_no_token :
  Message.salary Example.env (u "a competitive salary") = (u "", u "").
Proof. reflexivity. Qed.

(** C10: a non-empty [salary_low] never comes with an empty [salary_high],
    and [salary_low] is empty exactly when no token was collected or the
    collected values are all equal to one another. *)
Theorem salary_low_high (E : Env) (raw : str) :
  (fst (Message.salary E raw) <> [] -> snd (Message.salary E raw) <> []) /\
  (fst (Message.salary E raw) = [] <->
   Message.salary_matches E raw = [] \/
   (forall a b, In a (Message.salary_matches E raw) ->
                In b (Message.salary_matches E raw) -> a = b)).
Proof.
  pose proof (Tokens_digits (salary_matches_tokens E raw)) as Hdig.
  assert (Hpos : forall d, In d (Message.salary_matches E raw) -> d <> []).
  { intros d Hd. rewrite Forall_forall in Hdig.
    destruct (Hdig d Hd) as [[Hl _] _]. intros ->. simpl in Hl. lia. }
  unfold Message.salary.
  destruct (Message.salary_matches E raw) as [|a ms] eqn:Hm.
  - simpl. split; [congruence|]. split; auto.
  - destruct (Nat.eqb (Message.distinct (a :: ms)) 1) eqn:Hd.
    + apply Nat.eqb_eq, distinct_one in Hd as [_ Hall]. simpl. split.
      * intros _. apply Hpos. now left.
      * split; auto.
    + apply Nat.eqb_neq in Hd. destruct ms as [|b rest].
      * exfalso. apply Hd. reflexivity.
      * simpl. split.
        -- intros _. apply Hpos. right. now left.
        -- split.
           ++ intros ->. exfalso. apply (Hpos []); [now left | reflexivity].
           ++ intros [Hnil | Hall]; [discriminate|].
              exfalso. apply Hd, distinct_one. split; [discriminate | exact Hall].
Qed.

(** ** [_name_time] and [sender_name] *)

Lemma name_time_loop_none E lines :
  Forall (fun l => ~ header_line E l) lines ->
  Message.name_time_loop E lines = Raise LookupError.
Proof.
  induction 1 as [|l lines Hl _ IH]; [reflexivity|].
  cbn [Message.name_time_loop]. apply fullmatch_no_header in Hl. now rewrite Hl.
Qed.

(** The header is taken from the first line that is one. *)
Lemma name_time_loop_some E lines :
  Exists (header_line E) lines ->
  exists pre line post name time,
    lines = pre ++ line :: post /\
    Forall (fun l => ~ header_line E l) pre /\
    header_parts E line name time /\
    Message.name_time_loop E lines = Ok (name, time).
Proof.
  induction lines as [|l lines IH]; intros H; [inversion H|].
  cbn [Message.name_time_loop].
  destruct (fullmatch (Message.name_time_rex E) l) as [m|] eqn:Hm.
  - exists [], l, lines, (group 1 m), (group 2 m).
    repeat split; auto. now apply fullmatch_header.
  - apply fullmatch_no_header in Hm.
    inversion H as [? ? Hl|? ? Hrest]; subst; [contradiction|].
    destruct (IH Hrest) as (pre & line & post & name & time & -> & Hpre & Hp & Hr).
    exists (l :: pre), line, post, name, time. repeat split; auto.
Qed.

Lemma name_time_ok_header E raw name time :
  Message._name_time E raw = Ok (name, time) ->
  Exists (fun l => header_parts E l name time) (splitlines raw).
Proof.
  unfold Message._name_time. induction (splitlines raw) as [|l lines IH];
    cbn [Message.name_time_loop]; [discriminate|].
  destruct (fullmatch (Message.name_time_rex E) l) as [m|] eqn:Hm.
  - intros H. injection H as <- <-. left. now apply fullmatch_header.
  - intros H. right. now apply IH.
Qed.

Lemma sender_name_no_header E raw :
  Forall (fun l => ~ header_line E l) (splitlines raw) ->
  Message.sender_name E raw = Raise LookupError.
Proof.
  intros H. unfold Message.sender_name, Message._name_time.
  now rewrite name_time_loop_none.
Qed.

(** What [sender_name] returns, and when, once the header has been read. *)
Lemma sender_name_after_header E raw name time :
  Message._name_time E raw = Ok (name, time) ->
  (Message.sender_name E raw = Ok (Message.clean_name name) /\
   exists c rest, Message.clean_name name = c :: rest /\ capitalize E [c] = [c])
  \/
  (Message.sender_name E raw = Raise (AssertionError None) /\
   (Message.clean_name name = [] \/
    exists c rest, Message.clean_name name = c :: rest /\ capitalize E [c] <> [c])).
Proof.
  intros H. unfold Message.sender_name. rewrite H. cbn [bind fst].
  destruct (Message.clean_name name) as [|c rest]; [right; auto|].
  unfold str_eqb. destruct (str_eq_dec [c] (capitalize E [c])) as [Heq|Hne].
  - left. split; [reflexivity|]. now exists c, rest.
  - right. split; [reflexivity|]. right. exists c, rest. split; congruence.
Qed.

(** C3, as stated, fails: a header whose name starts with a digit is accepted,
    and the sender name then starts with that digit, which is no uppercase
    letter; and with a header whose name is only a parenthesis, no sender name
    comes out at all. *)
Lemma sender_name_digit_initial :
  Exists (header_line Example.env) (splitlines (u "1st Recruiter  3:45 PM")) /\
  Message.sender_name Example.env (u "1st Recruiter  3:45 PM")
  = Ok (u "1st Recruiter") /\
  hd_error (u "1st Recruiter") = Some (ch "1") /\
  in_range "A" "Z" (ch "1") = false /\
  Exists (header_line Example.env) (splitlines (u "(she/her)  3:45 PM")) /\
  Message.sender_name Example.env (u "(she/her)  3:45 PM")
  = Raise (AssertionError None).
Proof.
  assert (Hh : forall raw name time,
             Message._name_time Example.env raw = Ok (name, time) ->
             Exists (header_line Example.env) (splitlines raw)).
  { intros raw name time H. apply name_time_ok_header in H.
    eapply Exists_impl; [|exact H]. intros l Hl. now exists name, time. }
  repeat split; try reflexivity.
  - eapply Hh. vm_compute. reflexivity.
  - eapply Hh. vm_compute. reflexivity.
Qed.

(** ** [date], [time] and [as_dict] *)

Lemma as_dict_ok_inv E raw r :
  Message.as_dict E raw = Ok r ->
  exists n d t,
    Message.sender_name E raw = Ok n /\
    Message.date E raw = Ok d /\
    Message.time E raw = Ok t /\
    Fields.sender_name r = n /\
    Fields.date r = date_strftime (u "%Y-%m-%d") d /\
    Fields.time r = time_strftime (u "%H:%I") t.
Proof.
  unfold Message.as_dict. intros H.
  destruct (Message.sender_name E raw) as [n|e]; [|discriminate].
  destruct (Message.date E raw) as [d|e]; [|discriminate].
  destruct (Message.time E raw) as [t|e]; [|discriminate].
  cbn [bind] in H. injection H as <-. now exists n, d, t.
Qed.

(** [%H:%I] prints the hour twice, on the 24-hour and on the 12-hour clock. *)
Lemma strftime_H_I (t : time_t) :
  time_strftime (u "%H:%I") t =
  zfill 2 (decimal (hour t)) ++ u ":" ++ zfill 2 (decimal (hour12 (hour t))).
Proof.
  unfold time_strftime.
  change (u "%H:%I") with [ch "%"; ch "H"; ch ":"; ch "%"; ch "I"].
  cbn [strftime]. change (ch "%" =? ch "%")%N with true.
  change (ch ":" =? ch "%")%N with false. cbv iota.
  unfold directive.
  change (ch "H" =? ch "Y")%N with false. change (ch "H" =? ch "m")%N with false.
  change (ch "H" =? ch "d")%N with false. change (ch "H" =? ch "H")%N with true.
  change (ch "I" =? ch "Y")%N with false. change (ch "I" =? ch "m")%N with false.
  change (ch "I" =? ch "d")%N with false. change (ch "I" =? ch "H")%N with false.
  change (ch "I" =? ch "I")%N with true. cbv iota. cbn [time_of].
  now rewrite app_nil_r.
Qed.

(** C4, as stated, fails: for a message sent at 3:45 PM on March 5 the time
    field reads [15:03], the hour on both clocks; the day-of-month code
    would have printed [15:01] for a time of day (and [15:05] for the day of
    the message). *)
Lemma time_field_hour_twice :
  exists r d t,
    Message.as_dict Example.env blockA = Ok r /\
    Message.date Example.env blockA = Ok d /\
    Message.time Example.env blockA = Ok t /\
    d = Date 2023 3 5 /\ t = Time 15 45 0 /\
    Fields.time r = u "15:03" /\
    time_field_day_of_month t = u "15:01" /\
    strftime (u "%H:%d") (Datetime d t) = u "15:05".
Proof.
  destruct (Message.as_dict Example.env blockA) as [r|e] eqn:Hr;
    [|vm_compute in Hr; discriminate].
  exists r, (Date 2023 3 5), (Time 15 45 0).
  assert (Hf : Fields.time r = u "15:03")
    by (vm_compute in Hr; injection Hr as <-; reflexivity).
  repeat split; try exact Hf; vm_compute; reflexivity.
Qed.

(** C4 (amended): for every block extracted with success, the [time] field
    is the hour on the 24-hour clock, a colon, and the hour on the 12-hour
    clock (the code [%I], where the minutes code would be), each on two
    digits; the minutes and the seconds of the parsed time do not appear in
    it. *)
Theorem time_field_format (E : Env) (raw : str) (r : Fields.t) :
  Message.as_dict E raw = Ok r ->
  exists t,
    Message.time E raw = Ok t /\
    Fields.time r =
      zfill 2 (decimal (hour t)) ++ u ":" ++ zfill 2 (decimal (hour12 (hour t))) /\
    (forall mi se,
        time_strftime (u "%H:%I") (Time (hour t) mi se) = Fields.time r).
Proof.
  intros H. apply as_dict_ok_inv in H as (n & d & t & _ & _ & Ht & _ & _ & Hf).
  exists t. rewrite Hf, strftime_H_I. repeat split; auto.
  intros mi se. now rewrite strftime_H_I.
Qed.

(** The statement of C4 at [blockA], a message sent at 3:45 PM. *)
Lemma time_field_format_witness :
  exists t,
    Message.time Example.env blockA = Ok t /\
    u "15:03" =
      zfill 2 (decimal (hour t)) ++ u ":" ++ zfill 2 (decimal (hour12 (hour t))) /\
    (forall mi se,
        time_strftime (u "%H:%I") (Time (hour t) mi se) = u "15:03").
Proof.
  destruct (Message.as_dict Example.env blockA) as [r|e] eqn:Hr;
    [|vm_compute in Hr; discriminate].
  pose proof (time_field_format Example.env blockA Hr) as H.
  assert (Hf : Fields.time r = u "15:03")
    by (vm_compute in Hr; injection Hr as <-; reflexivity).
  rewrite Hf in H. exact H.
Defined.

Lemma company_default E raw :
  (forall c, In c COMPANIES -> ~ occurs c raw) -> Message.company E raw = u "".
Proof.
  intros H. unfold Message.company.
  destruct (find _ (set_order E)) as [c|] eqn:Hf; [|reflexivity].
  apply find_some in Hf as [Hin Hc]. apply contains_spec in Hc.
  exfalso. apply (H c); [|exact Hc].
  eapply Permutation_in; [apply (set_order_perm E) | exact Hin].
Qed.

Lemma has_emoji_default E raw :
  (forall c, In c raw -> EMOJI_DATA E c = false) ->
  Message.has_emoji E raw = false.
Proof.
  intros H. unfold Message.has_emoji. apply not_true_is_false. intros He.
  apply existsb_exists in He as [c [Hin Hc]]. rewrite (H c Hin) in Hc.
  discriminate.
Qed.

Lemma has_email_default raw :
  (forall pre w post g,
      raw = pre ++ w ++ post -> ~ Matches Message.email_rex w [] g) ->
  Message.has_email raw = false.
Proof.
  intros H. apply search_none in H. unfold Message.has_email. now rewrite H.
Qed.

(** C5, as stated, fails: a block with a header line and with a date token
    still fails, on the assertion of [sender_name], when the name in the header
    starts with a small letter. *)
Lemma as_dict_fails_with_header_and_date :
  Exists (header_line Example.env) (splitlines blockB) /\
  ~ no_date Example.env blockB /\
  Message.as_dict Example.env blockB = Raise (AssertionError None).
Proof.
  split; [|split].
  - assert (H : Message._name_time Example.env blockB
                = Ok (u "bob", u "3:45 PM")) by (vm_compute; reflexivity).
    apply name_time_ok_header in H. eapply Exists_impl; [|exact H].
    intros l Hl. now exists (u "bob"), (u "3:45 PM").
  - intros H. apply search_date_none in H. vm_compute in H. discriminate.
  - vm_compute. reflexivity.
Qed.

(** C5 (amended): [as_dict] fails with [LookupError] when the block has no
    header line; with the failure of [sender_name] when that fails (so also
    on its assertion, for a header whose cleaned name is empty or starts with
    a character that capitalisation changes); with an [AssertionError]
    carrying the sender name when the name is accepted and the block has no
    date token; and with the date parser's error when that parser rejects the
    date token or the clock time.  In every other case it succeeds.  The
    other fields never fail, and each takes its default when its pattern does
    not occur: the empty string, false or the empty pair for [sender_title],
    [sender_pronouns], [has_name], [read_cv], [salary], [has_emoji],
    [has_email], [has_url], [company] and [python], and true for
    [autogenerated], which holds of a block with neither name in it. *)
Theorem as_dict_failures (E : Env) (raw : str) :
  (Forall (fun l => ~ header_line E l) (splitlines raw) ->
   Message.as_dict E raw = Raise LookupError) /\
  (forall e, Message.sender_name E raw = Raise e ->
             Message.as_dict E raw = Raise e) /\
  (forall n, Message.sender_name E raw = Ok n -> no_date E raw ->
             Message.as_dict E raw = Raise (AssertionError (Some n))) /\
  (forall n m,
      Message.sender_name E raw = Ok n ->
      search (Message.date_rex E) raw = Some m ->
      dateutil_parse E (whole m) = None ->
      Message.as_dict E raw = Raise ParserError) /\
  (forall n name t m d,
      Message.sender_name E raw = Ok n ->
      Message._name_time E raw = Ok (name, t) ->
      search (Message.date_rex E) raw = Some m ->
      dateutil_parse E (whole m) = Some d ->
      dateutil_parse E t = None ->
      Message.as_dict E raw = Raise ParserError) /\
  (forall n name t m d tm,
      Message.sender_name E raw = Ok n ->
      Message._name_time E raw = Ok (name, t) ->
      search (Message.date_rex E) raw = Some m ->
      dateutil_parse E (whole m) = Some d ->
      dateutil_parse E t = Some tm ->
      exists r, Message.as_dict E raw = Ok r /\
                Fields.sender_name r = n /\
                Fields.time r = time_strftime (u "%H:%I") (time_of tm)) /\
  (Forall (fun l => ~ occurs marker l) (splitlines raw) ->
   Message.sender_title raw = u "") /\
  (~ occurs (u "she/") (lower E raw) -> ~ occurs (u "he/") (lower E raw) ->
   ~ occurs (u "they/") (lower E raw) ->
   Message.sender_pronouns E raw = u "") /\
  (~ occurs (u "Gram") raw -> ~ occurs (u "Nikita") raw ->
   Message.has_name raw = false /\ Message.read_cv raw = false /\
   Message.autogenerated raw = true) /\
  ((forall pre w post d, raw = pre ++ w ++ post -> ~ salary_token E d w) ->
   Message.salary E raw = (u "", u "")) /\
  ((forall c, In c raw -> EMOJI_DATA E c = false) ->
   Message.has_emoji E raw = false) /\
  ((forall pre w post g,
       raw = pre ++ w ++ post -> ~ Matches Message.email_rex w [] g) ->
   Message.has_email raw = false) /\
  (~ occurs (u "https://") raw -> ~ occurs (u "www.") raw ->
   Message.has_url raw = false) /\
  ((forall c, In c COMPANIES -> ~ occurs c raw) ->
   Message.company E raw = u "") /\
  (~ occurs (u "python") (lower E raw) -> Message.python E raw = false).
Proof.
  assert (Hfail : forall e, Message.sender_name E raw = Raise e ->
                            Message.as_dict E raw = Raise e).
  { intros e H. unfold Message.as_dict. now rewrite H. }
  split; [|split; [exact Hfail|]].
  { intros H. apply Hfail. now apply sender_name_no_header. }
  split; [|split; [|split; [|split]]].
  - intros n Hn Hd. apply search_date_none in Hd.
    unfold Message.as_dict, Message.date. now rewrite Hn, Hd.
  - intros n m Hn Hm Hp.
    unfold Message.as_dict, Message.date. now rewrite Hn, Hm, Hp.
  - intros n name t m d Hn Hnt Hm Hd Ht.
    unfold Message.as_dict, Message.date, Message.time.
    now rewrite Hn, Hm, Hd, Hnt; cbn [bind snd]; rewrite Ht.
  - intros n name t m d tm Hn Hnt Hm Hd Ht.
    unfold Message.as_dict, Message.date, Message.time.
    rewrite Hn, Hm, Hd, Hnt; cbn [bind snd]; rewrite Ht.
    eexists. split; [reflexivity|]. repeat split.
  - repeat split.
    + apply sender_title_default.
    + apply sender_pronouns_default.
    + apply contains_false in H, H0. unfold Message.has_name. now rewrite H, H0.
    + apply contains_false in H. exact H.
    + apply contains_false in H, H0. unfold Message.autogenerated.
      now rewrite H, H0.
    + apply salary_default.
    + apply has_emoji_default.
    + apply has_email_default.
    + apply has_url_default.
    + apply company_default.
    + intros H. apply contains_false in H. exact H.
Qed.

(** ** [strip] *)

Lemma lstrip_split (s : str) :
  exists pre, s = pre ++ lstrip s /\ forallb isspace pre = true.
Proof.
  induction s as [|c s [pre [Hs Hpre]]].
  - now exists [].
  - simpl. destruct (isspace c) eqn:Hc.
    + exists (c :: pre). simpl. rewrite Hc, Hpre. split; [now f_equal | reflexivity].
    + now exists [].
Qed.

Lemma lstrip_head (s : str) c r : lstrip s = c :: r -> isspace c = false.
Proof.
  induction s as [|x s IH]; simpl; [discriminate|].
  destruct (isspace x) eqn:Hx; [exact IH|]. intros H. now injection H as <- _.
Qed.

Lemma lstrip_fixed (s : str) : isspace (hd 0%N s) = false -> lstrip s = s.
Proof. destruct s as [|c s]; simpl; [reflexivity|]. now intros ->. Qed.

Lemma lstrip_spaces (s : str) : forallb isspace s = true -> lstrip s = [].
Proof.
  induction s as [|c s IH]; simpl; [reflexivity|].
  intros H. apply andb_true_iff in H as [Hc Hs]. rewrite Hc. now apply IH.
Qed.

Lemma rstrip_split (s : str) :
  exists post, s = rstrip s ++ post /\ forallb isspace post = true.
Proof.
  unfold rstrip. destruct (lstrip_split (rev s)) as [pre [Hs Hpre]].
  exists (rev pre). split.
  - rewrite <- rev_app_distr, <- Hs. now rewrite rev_involutive.
  - rewrite forallb_forall in *. intros c Hc. apply Hpre. now apply in_rev.
Qed.

Lemma rstrip_last (s : str) : rstrip s <> [] -> isspace (last (rstrip s) 0%N) = false.
Proof.
  unfold rstrip. destruct (lstrip (rev s)) as [|c r] eqn:Hl; [contradiction|].
  intros _. simpl. rewrite last_last. now apply lstrip_head in Hl.
Qed.

Lemma rstrip_fixed (s : str) :
  s <> [] -> isspace (last s 0%N) = false -> rstrip s = s.
Proof.
  intros Hne Hl. unfold rstrip. rewrite lstrip_fixed; [apply rev_involutive|].
  destruct (exists_last Hne) as [s' [c ->]].
  rewrite last_last in Hl. now rewrite rev_unit.
Qed.

(** [strip] cuts whitespace off both ends, and nothing else. *)
Lemma strip_split (s : str) :
  exists pre post,
    s = pre ++ strip s ++ post /\
    forallb isspace pre = true /\ forallb isspace post = true.
Proof.
  unfold strip. destruct (lstrip_split s) as [pre [Hs Hpre]].
  destruct (rstrip_split (lstrip s)) as [post [Hr Hpost]].
  exists pre, post. split; [|now split]. now rewrite <- Hr.
Qed.

Lemma strip_trimmed (s : str) : strip s <> [] -> trimmed (strip s).
Proof.
  intros Hne. split; [exact Hne|]. split; [|now apply rstrip_last].
  unfold strip in *. destruct (rstrip_split (lstrip s)) as [post [Hr _]].
  destruct (rstrip (lstrip s)) as [|c r] eqn:Hrs; [contradiction|].
  simpl. rewrite Hr in *. simpl in *.
  destruct (lstrip s) as [|c' r'] eqn:Hl; [discriminate|].
  injection Hr as -> _. now apply lstrip_head in Hl.
Qed.

Lemma strip_fixed (b : str) : trimmed b -> strip b = b.
Proof.
  intros (Hne & Hh & Hl). unfold strip.
  rewrite lstrip_fixed by exact Hh. now apply rstrip_fixed.
Qed.

Lemma strip_spaces (s : str) : forallb isspace s = true -> strip s = [].
Proof. intros H. unfold strip. now rewrite lstrip_spaces. Qed.

Lemma strip_keeps_absence (w s : str) : ~ occurs w s -> ~ occurs w (strip s).
Proof.
  intros H [a [b Hs]]. apply H.
  destruct (strip_split s) as (pre & post & Hsplit & _).
  exists (pre ++ a), (b ++ post). rewrite Hsplit at 1. rewrite Hs.
  now rewrite <- !app_assoc.
Qed.

(** ** [split] and the blocks of [main] *)

Lemma split_from_skip (sep : str) : forall x n cur rest,
  length x = n -> split_from sep n cur (x ++ rest) = split_from sep 0 cur rest.
Proof.
  induction x as [|c x IH]; intros n cur rest Hn; simpl in Hn; subst n.
  - reflexivity.
  - cbn [app split_from length]. now apply IH.
Qed.

Lemma split_from_at_sep (sep cur rest : str) :
  sep <> [] ->
  split_from sep 0 cur (sep ++ rest) = cur :: split_from sep 0 [] rest.
Proof.
  intros Hne. destruct sep as [|c sep'] eqn:Hsep; [contradiction|].
  cbn [app split_from].
  assert (Hst : startswith (c :: sep' ++ rest) (c :: sep') = true)
    by (apply startswith_spec; now exists rest).
  rewrite Hst. f_equal. cbn [length pred]. now apply split_from_skip.
Qed.

(** A stretch of text in which no separator starts is read into the piece. *)
Lemma split_from_piece (sep : str) : forall x cur tail,
  (forall x1 x2, x = x1 ++ x2 -> x2 <> [] -> startswith (x2 ++ tail) sep = false) ->
  split_from sep 0 cur (x ++ tail) = split_from sep 0 (cur ++ x) tail.
Proof.
  induction x as [|c x IH]; intros cur tail H.
  - now rewrite app_nil_r.
  - cbn [app split_from].
    assert (Hc : startswith (c :: x ++ tail) sep = false)
      by (apply (H [] (c :: x)); [reflexivity | discriminate]).
    rewrite Hc, IH.
    + now rewrite <- app_assoc.
    + intros x1 x2 -> Hx2. apply (H (c :: x1) x2); [reflexivity | exact Hx2].
Qed.

Lemma separator_chars (x l : str) :
  separator = x ++ l -> forall c, In c x -> c = Message.LF.
Proof.
  intros H c Hc. assert (Hin : In c separator) by (rewrite H; apply in_or_app; now left).
  unfold separator in Hin. now apply repeat_spec in Hin.
Qed.

(** In a block, and whatever follows it, no separator starts. *)
Lemma block_no_start (b tail : str) :
  block b ->
  forall x1 x2, b = x1 ++ x2 -> x2 <> [] ->
                startswith (x2 ++ tail) separator = false.
Proof.
  intros [(Hne & _ & Hlast) Hfree] x1 x2 -> Hx2.
  apply not_true_is_false. intros Hst.
  apply startswith_spec in Hst as [post Hpost].
  apply app_eq_app in Hpost as [l [[Hx Ht] | [Hs Ht]]].
  - apply Hfree. exists x1, l. now rewrite Hx.
  - destruct (exists_last Hx2) as [x' [c Hx]]. subst x2.
    assert (Hc : c = Message.LF).
    { apply (separator_chars _ _ Hs). apply in_or_app. right. now left. }
    rewrite app_assoc, last_last in Hlast. subst c. discriminate.
Qed.

Lemma split_join (bs : list str) :
  bs <> [] -> Forall block bs ->
  split_from separator 0 [] (join separator bs) = bs.
Proof.
  induction bs as [|b bs IH]; [contradiction|]. intros _ H.
  inversion H as [|? ? Hb Hbs]; subst.
  destruct bs as [|b' bs].
  - cbn [join]. rewrite <- (app_nil_r b) at 1.
    rewrite split_from_piece by (now apply block_no_start). reflexivity.
  - change (join separator (b :: b' :: bs))
      with (b ++ separator ++ join separator (b' :: bs)).
    rewrite split_from_piece by (now apply block_no_start).
    rewrite split_from_at_sep by discriminate.
    cbn [app]. f_equal. apply IH; [discriminate | exact Hbs].
Qed.

(** No piece [split] yields has a separator in it. *)
Lemma split_from_free (sep : str) : sep <> [] -> forall s skip cur,
  (skip = 0 /\ (forall a b, cur ++ s = a ++ sep ++ b -> length cur <= length a))
  \/ cur = [] ->
  Forall (fun p => ~ occurs sep p) (split_from sep skip cur s).
Proof.
  intros Hne. destruct sep as [|c0 sep0] eqn:Hsep; [contradiction|].
  rewrite <- Hsep in *.
  assert (Hlen : 0 < length sep) by (rewrite Hsep; simpl; lia).
  assert (Hnil : ~ occurs sep []).
  { intros [a [b H]]. apply (f_equal (@length _)) in H.
    rewrite !length_app in H. simpl in H. lia. }
  induction s as [|c s IH]; intros skip cur H.
  - cbn [split_from]. constructor; [|constructor].
    destruct H as [[_ H] | ->]; [|exact Hnil].
    intros [a [b Hocc]]. specialize (H a b). rewrite app_nil_r in H.
    specialize (H Hocc). rewrite Hocc, !length_app in H. lia.
  - cbn [split_from]. destruct skip as [|n].
    + assert (HP : forall a b, cur ++ c :: s = a ++ sep ++ b -> length cur <= length a).
      { destruct H as [[_ H] | ->]; [exact H | intros; simpl; lia]. }
      destruct (startswith (c :: s) sep) eqn:Hst.
      * constructor; [|apply IH; now right].
        intros [a [b Hocc]].
        assert (Hle := HP a (b ++ c :: s)).
        rewrite Hocc, <- !app_assoc in Hle. specialize (Hle eq_refl).
        rewrite !length_app in Hle. lia.
      * apply IH. left. split; [reflexivity|].
        intros a b Hocc. rewrite <- app_assoc in Hocc. cbn [app] in Hocc.
        pose proof (HP a b Hocc) as Hle. rewrite length_app. simpl.
        destruct (Nat.eq_dec (length cur) (length a)) as [Heq|]; [|lia].
        exfalso. apply app_eq_app in Hocc as [l [[Hx Ht] | [Hs Ht]]].
        -- apply (f_equal (@length _)) in Hx. rewrite length_app in Hx.
           assert (l = []) by (destruct l; [reflexivity | simpl in Hx; lia]).
           subst l. simpl in Ht. rewrite <- Ht in Hst.
           assert (startswith (sep ++ b) sep = true)
             by (apply startswith_spec; now exists b).
           congruence.
        -- apply (f_equal (@length _)) in Hs. rewrite length_app in Hs.
           assert (l = []) by (destruct l; [reflexivity | simpl in Hs; lia]).
           subst l. simpl in Ht. rewrite Ht in Hst.
           assert (startswith (sep ++ b) sep = true)
             by (apply startswith_spec; now exists b).
           congruence.
    + destruct H as [[H _] | ->]; [discriminate|]. apply IH. now right.
Qed.

Lemma split_free (s sep : str) :
  sep <> [] -> Forall (fun p => ~ occurs sep p) (split s sep).
Proof. intros H. apply split_from_free; auto. Qed.

(** The pieces of a text made of whitespace are made of whitespace. *)
Lemma split_from_spaces (sep : str) : forall s skip cur,
  forallb isspace s = true -> forallb isspace cur = true ->
  Forall (fun p => forallb isspace p = true) (split_from sep skip cur s).
Proof.
  induction s as [|c s IH]; intros skip cur Hs Hcur; cbn [split_from].
  - now constructor.
  - simpl in Hs. apply andb_true_iff in Hs as [Hc Hs].
    destruct skip as [|n]; [|now apply IH].
    destruct (startswith (c :: s) sep).
    + constructor; [exact Hcur | now apply IH].
    + apply IH; [exact Hs|]. rewrite forallb_app, Hcur. simpl. now rewrite Hc.
Qed.

Lemma raws_in (text b : str) :
  In b (raws text) ->
  exists p, In p (split text separator) /\ b = strip p /\ b <> [].
Proof.
  unfold raws. intros H. apply filter_In in H as [Hin Ht].
  apply in_map_iff in Hin as [p [Hp Hin]]. exists p. repeat split; auto.
  intros ->. discriminate.
Qed.

(** X1: every block [main] hands to [Message] is trimmed (not empty, no
    whitespace at either end) and has no run of five line feeds in it. *)
Theorem raws_are_blocks (text : str) : Forall block (raws text).
Proof.
  apply Forall_forall. intros b Hb.
  apply raws_in in Hb as (p & Hp & -> & Hne). split.
  - now apply strip_trimmed.
  - apply strip_keeps_absence.
    pose proof (@split_free text separator) as Hfree.
    rewrite Forall_forall in Hfree. apply Hfree; [discriminate | exact Hp].
Qed.

Lemma raws_of_join (bs : list str) :
  Forall block bs -> raws (join separator bs) = bs.
Proof.
  intros H. unfold raws, split. destruct bs as [|b bs]; [reflexivity|].
  rewrite split_join by (auto; discriminate).
  assert (Hmap : map strip (b :: bs) = b :: bs).
  { rewrite <- (map_id (b :: bs)) at 2. apply map_ext_in.
    intros x Hx. rewrite Forall_forall in H. apply strip_fixed, H, Hx. }
  rewrite Hmap. apply forallb_filter_id. apply forallb_forall.
  intros x Hx. rewrite Forall_forall in H.
  destruct (H x Hx) as [[Hne _] _]. now destruct x.
Qed.

(** X2: an archive written as blocks joined by five line feeds is cut back
    into exactly those blocks, in their order. *)
Theorem raws_join (bs : list str) :
  Forall block bs -> raws (join separator bs) = bs.
Proof. apply raws_of_join. Qed.

Lemma block_by_computation (b : str) :
  truthy b = true -> isspace (hd 0%N b) = false ->
  isspace (last b 0%N) = false -> contains separator b = false -> block b.
Proof.
  intros Hne Hh Hl Hc. split; [|now apply contains_false].
  split; [intros ->; discriminate | now split].
Qed.

(** The statement of X2 at an archive of two blocks. *)
Lemma raws_join_witness :
  raws (join separator [blockA; blockB]) = [blockA; blockB].
Proof.
  apply (@raws_join [blockA; blockB]).
  repeat constructor; apply block_by_computation; reflexivity.
Defined.

(** X3: an archive made of whitespace only (the empty archive too) has no
    block: [main] prints nothing and does not fail. *)
Theorem main_blank_archive (E : Env) (text : str) :
  forallb isspace text = true ->
  raws text = [] /\ main E text = ([], None).
Proof.
  intros H. assert (Hr : raws text = []).
  { unfold raws. destruct (filter truthy _) as [|b l] eqn:Hf; [reflexivity|].
    assert (Hb : In b (filter truthy (map strip (split text separator))))
      by (rewrite Hf; now left).
    apply filter_In in Hb as [Hin Ht]. apply in_map_iff in Hin as [p [Hp Hin]].
    pose proof (split_from_spaces separator text 0 [] H eq_refl) as Hs.
    rewrite Forall_forall in Hs. apply Hs in Hin.
    rewrite (strip_spaces _ Hin) in Hp. subst b. discriminate. }
  split; [exact Hr|]. unfold main. now rewrite Hr.
Qed.

(** The statement of X3 at an archive of blank lines and spaces. *)
Lemma main_blank_archive_witness :
  raws (Message.LF :: u "  " ++ separator ++ u " ") = [] /\
  main Example.env (Message.LF :: u "  " ++ separator ++ u " ") = ([], None).
Proof.
  apply (main_blank_archive Example.env). reflexivity.
Defined.

Lemma main_loop_spec (E : Env) : forall l,
  Forall2 (fun raw r => Message.as_dict E raw = Ok r)
          (firstn (length (fst (main_loop E l))) l)
          (fst (main_loop E l)) /\
  match snd (main_loop E l) with
  | None => length (fst (main_loop E l)) = length l
  | Some e =>
      exists bad,
        nth_error l (length (fst (main_loop E l))) = Some bad /\
        Message.as_dict E bad = Raise e
  end.
Proof.
  induction l as [|raw l IH]; cbn [main_loop].
  - split; [constructor | reflexivity].
  - destruct IH as [IH1 IH2].
    destruct (Message.as_dict E raw) as [r|e] eqn:Hr.
    + destruct (main_loop E l) as [printed stopped].
      cbn [fst snd length firstn nth_error] in *.
      split; [now constructor|].
      destruct stopped as [e|]; [exact IH2 | now f_equal].
    + cbn [fst snd length firstn nth_error]. split; [constructor|].
      now exists raw.
Qed.

(** X4: [main] prints the records of the blocks in their order, up to the first
    block on which [as_dict] fails; it stops there with that block's
    exception and prints nothing more, and without such a block it prints one
    record for each block. *)
Theorem main_stops_at_first_failure (E : Env) (text : str) :
  Forall2 (fun raw r => Message.as_dict E raw = Ok r)
          (firstn (length (fst (main E text))) (raws text))
          (fst (main E text)) /\
  match snd (main E text) with
  | None => length (fst (main E text)) = length (raws text)
  | Some e =>
      exists bad,
        nth_error (raws text) (length (fst (main E text))) = Some bad /\
        Message.as_dict E bad = Raise e
  end.
Proof. apply main_loop_spec. Qed.

(** ** More on the flags *)

(** X5: [has_name] holds exactly when ['Gram'] or ['Nikita'] occurs; a block
    without either name is always classified as autogenerated and as not
    having read the CV, and an autogenerated block never counts as having
    read the CV. *)
Theorem has_name_and_autogenerated (raw : str) :
  (Message.has_name raw = true <->
   occurs (u "Gram") raw \/ occurs (u "Nikita") raw) /\
  (Message.has_name raw = false ->
   Message.autogenerated raw = true /\ Message.read_cv raw = false) /\
  (Message.autogenerated raw = true -> Message.read_cv raw = false).
Proof.
  unfold Message.has_name, Message.autogenerated, Message.read_cv.
  rewrite <- !contains_spec.
  destruct (contains (u "Gram") raw), (contains (u "Nikita") raw);
    simpl; repeat split; try tauto; try discriminate; auto.
Qed.

(** ** [company] *)

Lemma company_found E raw c :
  Message.company E raw = c -> c <> [] ->
  In c COMPANIES /\ occurs c raw.
Proof.
  unfold Message.company. intros H Hne.
  destruct (find _ (set_order E)) as [c'|] eqn:Hf.
  - subst c'. apply find_some in Hf as [Hin Hc]. split.
    + eapply Permutation_in; [apply (set_order_perm E) | exact Hin].
    + now apply contains_spec.
  - subst c. now contradiction Hne.
Qed.

Lemma company_some E raw c :
  In c COMPANIES -> occurs c raw -> Message.company E raw <> [].
Proof.
  intros Hin Hocc. unfold Message.company.
  destruct (find _ (set_order E)) as [c'|] eqn:Hf.
  - apply find_some in Hf as [Hin' _].
    assert (Hc : In c' COMPANIES)
      by (eapply Permutation_in; [apply (set_order_perm E) | exact Hin']).
    intros ->. revert Hc. vm_compute. intuition discriminate.
  - apply contains_spec in Hocc.
    rewrite (find_none _ _ Hf c) in Hocc; [discriminate|].
    eapply Permutation_in; [apply Permutation_sym, (set_order_perm E) | exact Hin].
Qed.

(** X6: [company] answers the empty string exactly when no company of the
    set occurs in the block; any other answer is a company of the set that
    occurs in the block; and when one company alone occurs, the answer is
    that company, in whatever order the set is visited. *)
Theorem company_answer (E : Env) (raw : str) :
  (Message.company E raw = u "" <->
   forall c, In c COMPANIES -> ~ occurs c raw) /\
  (Message.company E raw <> u "" ->
   In (Message.company E raw) COMPANIES /\
   occurs (Message.company E raw) raw) /\
  (forall c,
      In c COMPANIES -> occurs c raw ->
      (forall c', In c' COMPANIES -> occurs c' raw -> c' = c) ->
      Message.company E raw = c).
Proof.
  split; [|split].
  - split.
    + intros H c Hin Hocc. now apply (@company_some E raw c Hin Hocc).
    + apply company_default.
  - intros H. exact (@company_found E raw _ eq_refl H).
  - intros c Hin Hocc Huniq.
    pose proof (@company_some E raw c Hin Hocc) as Hne.
    destruct (@company_found E raw _ eq_refl Hne) as [Hin' Hocc'].
    now apply Huniq.
Qed.

(** X7: the block alone does not decide [company]: every company of the set
    that occurs in the block is the answer for some order of visiting the
    set, everything else in the environment being the same. *)
Theorem company_any_order (E : Env) (raw c : str) :
  In c COMPANIES -> occurs c raw ->
  exists E',
    isdecimal E' = isdecimal E /\
    tolower_full E' = tolower_full E /\
    final_sigma E' = final_sigma E /\
    capitalize E' = capitalize E /\
    EMOJI_DATA E' = EMOJI_DATA E /\
    dateutil_parse E' = dateutil_parse E /\
    Message.company E' raw = c.
Proof.
  intros Hin Hocc. apply in_split in Hin as (l1 & l2 & Hsplit).
  assert (Hperm : Permutation (c :: l1 ++ l2) COMPANIES)
    by (rewrite Hsplit; apply Permutation_middle).
  exists {| isdecimal := isdecimal E;
            tolower_full := tolower_full E;
            final_sigma := final_sigma E;
            capitalize := capitalize E;
            EMOJI_DATA := EMOJI_DATA E;
            dateutil_parse := dateutil_parse E;
            set_order := c :: l1 ++ l2;
            tolower_full_ascii := tolower_full_ascii E;
            set_order_perm := Hperm |}.
  repeat split. unfold Message.company. cbn [set_order find].
  apply contains_spec in Hocc. now rewrite Hocc.
Qed.

(** The statement of X7 at a block naming two companies, for the one that
    comes later in the literal. *)
Lemma company_any_order_witness :
  exists E',
    isdecimal E' = isdecimal Example.env /\
    tolower_full E' = tolower_full Example.env /\
    final_sigma E' = final_sigma Example.env /\
    capitalize E' = capitalize Example.env /\
    EMOJI_DATA E' = EMOJI_DATA Example.env /\
    dateutil_parse E' = dateutil_parse Example.env /\
    Message.company E' (u "Amazon or Mollie?") = u "Mollie".
Proof.
  apply (@company_any_order Example.env (u "Amazon or Mollie?") (u "Mollie")).
  - vm_compute. tauto.
  - apply contains_spec. reflexivity.
Defined.

(** With the set in the order of the literal the same block gives
    ['Amazon'], and in the opposite order ['Mollie']. *)
Example company_depends_on_order :
  Message.company Example.env (u "Amazon or Mollie?") = u "Amazon" /\
  Message.company env_reversed (u "Amazon or Mollie?") = u "Mollie".
Proof. split; vm_compute; reflexivity. Qed.

(** ** [has_email] *)

Lemma email_rex_inv w g : Matches Message.email_rex w [] g -> email_token w.
Proof.
  unfold Message.email_rex, Cats, Chr. intros H.
  inv_matches; eqb_subst. unfold email_token.
  match goal with
  | |- exists a b tld, ?x ++ [_] ++ ?y ++ [_] ++ ?z = _ /\ _ => exists x, y, z
  end.
  simpl in *. repeat split; auto; try lia.
  - intros ->. simpl in *. lia.
  - intros ->. simpl in *. lia.
Qed.

Lemma email_rex_complete w : email_token w -> Matches Message.email_rex w [] [].
Proof.
  intros (a & b & tld & -> & Ha & Hda & Hb & Hdb & Ht & Hl).
  unfold Message.email_rex, Cats.
  change (u "@") with [ch "@"]. change (u ".") with [ch "."].
  apply M_Cat with (g1 := []).
  { constructor; simpl; auto. destruct a; [contradiction | simpl; lia]. }
  apply M_Cat with (g1 := []); [now constructor|].
  apply M_Cat with (g1 := []).
  { constructor; simpl; auto. destruct b; [contradiction | simpl; lia]. }
  apply M_Cat with (g1 := []); [now constructor|].
  constructor; simpl; auto; lia.
Qed.

(** X8: [has_email] holds exactly when the block contains, on one line, some
    text, an [@], some text, a dot and two or three small ASCII letters
    (whatever follows them); so a block without [@] has no email. *)
Theorem has_email_iff (raw : str) :
  (Message.has_email raw = true <->
   exists pre w post, raw = pre ++ w ++ post /\ email_token w) /\
  (~ In (ch "@") raw -> Message.has_email raw = false).
Proof.
  assert (Hiff : Message.has_email raw = true <->
                 exists pre w post, raw = pre ++ w ++ post /\ email_token w).
  { unfold Message.has_email. split.
    - destruct (search Message.email_rex raw) as [m|] eqn:Hs; [|discriminate].
      intros _. apply search_sound in Hs as (pre & Hraw & M).
      exists pre, (whole m), (rest_after m). split; [exact Hraw|].
      now apply email_rex_inv in M.
    - intros (pre & w & post & -> & T). apply email_rex_complete in T.
      apply (search_complete pre post) in T.
      now destruct (search Message.email_rex (pre ++ w ++ post)). }
  split; [exact Hiff|].
  intros Hno. apply not_true_is_false. intros H.
  apply Hiff in H as (pre & w & post & -> & a & b & tld & -> & _).
  apply Hno. apply in_or_app. right. apply in_or_app. left.
  apply in_or_app. right. now left.
Qed.

(** ** Letter case *)

Lemma lower_from_ascii E : forall w before rest,
  forallb (fun c => (c <? 128)%N) w = true ->
  lower_from E before (w ++ rest) =
  map ascii_lower w ++ lower_from E (before ++ w) rest.
Proof.
  induction w as [|c w IH]; intros before rest H.
  - now rewrite app_nil_r.
  - simpl in H. apply andb_true_iff in H as [Hlt Hw]. apply N.ltb_lt in Hlt.
    assert (Hs : (c =? 931)%N = false) by (apply N.eqb_neq; lia).
    cbn [app lower_from map].
    rewrite Hs, (tolower_full_ascii E) by exact Hlt.
    rewrite IH, <- !app_assoc by exact Hw. reflexivity.
Qed.

Lemma lower_occurs_ascii E (w raw : str) :
  forallb (fun c => (c <? 128)%N) w = true ->
  occurs w raw -> occurs (map ascii_lower w) (lower E raw).
Proof.
  intros Hw [pre [post ->]]. unfold lower.
  destruct (lower_from_prefix E pre [] (w ++ post)) as [done' ->].
  rewrite (lower_from_ascii E _ _ _ Hw). now eexists _, _.
Qed.

(** X9: [python] does not depend on the case of ASCII letters: a block
    containing ['python'] written in any mix of capitals and small letters
    has [python] true. *)
Theorem python_ignores_case (E : Env) (raw w : str) :
  forallb (fun c => (c <? 128)%N) w = true ->
  map ascii_lower w = u "python" ->
  occurs w raw ->
  Message.python E raw = true.
Proof.
  intros Hw Heq Hocc. pose proof (lower_occurs_ascii E Hw Hocc) as Hl.
  rewrite Heq in Hl. unfold Message.python. now apply contains_spec.
Qed.

(** The statement of X9 at a block that writes [PyThOn]. *)
Lemma python_ignores_case_witness :
  Message.python Example.env (u "We use PyThOn a lot") = true.
Proof.
  apply (@python_ignores_case Example.env (u "We use PyThOn a lot") (u "PyThOn")).
  - reflexivity.
  - reflexivity.
  - apply contains_spec. reflexivity.
Defined.

(** X10: [sender_pronouns] does not depend on the case of ASCII letters
    either: a block containing ['she/'] in any mix of capitals and small
    letters, as in the header's ['(She/Her)'], has the pronouns ['she']. *)
Theorem sender_pronouns_ignores_case (E : Env) (raw w : str) :
  forallb (fun c => (c <? 128)%N) w = true ->
  map ascii_lower w = u "she/" ->
  occurs w raw ->
  Message.sender_pronouns E raw = u "she".
Proof.
  intros Hw Heq Hocc. pose proof (lower_occurs_ascii E Hw Hocc) as Hl.
  rewrite Heq in Hl. unfold Message.sender_pronouns.
  apply contains_spec in Hl. now rewrite Hl.
Qed.

(** The statement of X10 at [blockA], whose header reads [(She/Her)]. *)
Lemma sender_pronouns_ignores_case_witness :
  Message.sender_pronouns Example.env blockA = u "she".
Proof.
  apply (@sender_pronouns_ignores_case Example.env blockA (u "She/")).
  - reflexivity.
  - reflexivity.
  - apply contains_spec. reflexivity.
Defined.

(** ** The header, once more: the longest name *)

Section GreedyFirst.
Variable R : Type.

(** A greedy repetition settles on the longest run the rest of the pattern
    can live with. *)
Lemma greedy_first p lo hi s (k : str -> option R) x :
  greedy p lo hi s k = Some x ->
  exists w s',
    s = w ++ s' /\ forallb p w = true /\ lo <= length w /\
    within hi (length w) /\ k s' = Some x /\
    (forall w2 s2,
        s = w2 ++ s2 -> forallb p w2 = true -> within hi (length w2) ->
        length w < length w2 -> k s2 = None).
Proof.
  revert lo hi. induction s as [|c s IH]; intros lo hi H.
  - simpl in H. destruct lo; [|discriminate].
    exists [], []. repeat split; auto.
    + destruct hi; simpl; lia.
    + intros w2 s2 Hs _ _ Hlen. symmetry in Hs.
      apply app_eq_nil in Hs as [-> _]. simpl in Hlen. lia.
  - cbn [greedy] in H.
    destruct (p c && more hi) eqn:Hc.
    + apply andb_true_iff in Hc as [Hp Hm].
      destruct (greedy p (pred lo) (option_map pred hi) s k) eqn:Hg.
      * injection H as ->.
        apply IH in Hg as (w & s' & -> & Hall & Hlo & Hhi & Hk & Hlong).
        exists (c :: w), s'. simpl. rewrite Hp, Hall. repeat split; auto.
        -- lia.
        -- destruct hi as [[|h]|]; simpl in *; try discriminate; auto. lia.
        -- intros w2 s2 Hs Hw2 Hin Hlen.
           destruct w2 as [|c2 w2]; [simpl in Hlen; lia|].
           simpl in Hs. injection Hs as <- Hs. simpl in Hw2.
           apply andb_true_iff in Hw2 as [_ Hw2]. apply (Hlong w2 s2); auto.
           ++ destruct hi as [h|]; simpl in *; auto. lia.
           ++ simpl in Hlen. lia.
      * destruct lo; [|discriminate].
        exists [], (c :: s). repeat split; auto.
        -- destruct hi; simpl; lia.
        -- intros w2 s2 Hs Hw2 Hin Hlen.
           destruct w2 as [|c2 w2]; [simpl in Hlen; lia|].
           simpl in Hs. injection Hs as <- Hs. simpl in Hw2.
           apply andb_true_iff in Hw2 as [_ Hw2].
           destruct (k s2) eqn:Hk2; [|reflexivity]. exfalso.
           assert (Hne : k s2 <> None) by congruence.
           apply (@greedy_complete R p (pred 0) (option_map pred hi) w2 s2 k) in Hne; auto.
           ++ rewrite <- Hs in Hne. contradiction.
           ++ simpl. lia.
           ++ destruct hi as [h|]; simpl in *; auto. lia.
    + destruct lo; [|discriminate].
      exists [], (c :: s). repeat split; auto.
      * destruct hi; simpl; lia.
      * intros w2 s2 Hs Hw2 Hin Hlen.
        destruct w2 as [|c2 w2]; [simpl in Hlen; lia|].
        simpl in Hs. injection Hs as <- Hs. simpl in Hw2.
        apply andb_true_iff in Hw2 as [Hp _]. rewrite Hp in Hc. simpl in Hc.
        destruct hi as [[|h]|]; simpl in *; try discriminate. lia.
Qed.
End GreedyFirst.

Lemma header_tail_inv E w g g' :
  Matches (header_tail E) w g g' -> exists time, g' = (2, time) :: g.
Proof.
  unfold header_tail, Cats, Opt, Chr. intros H.
  inv_matches; eexists; reflexivity.
Qed.

Lemma header_tail_complete E sep time g :
  (sep = u " " \/ sep = u "  ") -> clock_token E time ->
  Matches (header_tail E) (sep ++ time) g ((2, time) :: g).
Proof.
  intros Hsep (h & m & ap & -> & [Hh Hhl] & [Hm Hml] & Hap).
  unfold header_tail, Cats.
  assert (Htime : Matches
            (Grp 2 (Cat (Rep (isdecimal E) 1 (Some 2))
                   (Cat (Chr ":") (Cat (Rep (isdecimal E) 1 (Some 2))
                   (Cat (Chr " ") (Cat (Cls (Message.one_of "AP")) (Chr "M")))))))
            (h ++ u ":" ++ m ++ u " " ++ [ap] ++ u "M")
            g ((2, h ++ u ":" ++ m ++ u " " ++ [ap] ++ u "M") :: g)).
  { apply M_Grp.
    apply M_Cat with (g1 := g); [constructor; simpl; auto; lia|].
    apply M_Cat with (g1 := g); [now constructor|].
    apply M_Cat with (g1 := g); [constructor; simpl; auto; lia|].
    apply M_Cat with (g1 := g); [now constructor|].
    apply M_Cat with (g1 := g); [|now constructor].
    constructor. destruct Hap as [-> | ->]; reflexivity. }
  destruct Hsep as [-> | ->].
  - change (u " ") with ([ch " "] ++ []). rewrite <- app_assoc.
    apply M_Cat with (g1 := g); [now constructor|].
    apply M_Cat with (g1 := g); [apply M_AltR; constructor | exact Htime].
  - change (u "  ") with ([ch " "] ++ [ch " "]). rewrite <- app_assoc.
    apply M_Cat with (g1 := g); [now constructor|].
    apply M_Cat with (g1 := g); [apply M_AltL; now constructor | exact Htime].
Qed.

Lemma fullmatch_header_longest E line m :
  fullmatch (Message.name_time_rex E) line = Some m ->
  forall name' time',
    header_parts E line name' time' -> length name' <= length (group 1 m).
Proof.
  unfold fullmatch.
  change (Message.name_time_rex E)
    with (Cat (Grp 1 (Rep dot 1 None)) (header_tail E)).
  cbn [exec]. intros H.
  apply greedy_first in H as (w & s' & Hline & _ & _ & _ & Hk & Hlong).
  apply exec_sound in Hk as (w2 & s2 & g' & Hs' & M & Hm).
  destruct s2; [|discriminate]. injection Hm as <-.
  apply header_tail_inv in M as [time ->].
  assert (Hg : group 1 (Match line ((2, time) :: [(1, consumed line s')]) []) = w).
  { unfold group. simpl. rewrite Hline. apply consumed_app. }
  rewrite Hg. intros name' time' (sep & Hl & Hne & Hdot & Hsep & Hclock).
  destruct (Nat.le_gt_cases (length name') (length w)) as [Hle|Hgt]; [exact Hle|].
  exfalso.
  assert (Hnone := Hlong name' (sep ++ time') Hl Hdot I Hgt).
  pose proof (@header_tail_complete E sep time' [(1, name')] Hsep Hclock) as Mt.
  apply (@exec_complete _ _ _ _ _ Mt []
           (fun s'' g'' => match s'' with
                           | [] => Some (Match line g'' [])
                           | _ :: _ => None
                           end)); [discriminate|].
  rewrite app_nil_r. rewrite Hl in Hnone at 1. rewrite consumed_app in Hnone.
  exact Hnone.
Qed.

Lemma name_time_loop_first E : forall lines name time,
  Message.name_time_loop E lines = Ok (name, time) ->
  exists pre line post,
    lines = pre ++ line :: post /\
    Forall (fun l => ~ header_line E l) pre /\
    header_parts E line name time /\
    (forall name' time',
        header_parts E line name' time' -> length name' <= length name).
Proof.
  induction lines as [|l lines IH]; intros name time H;
    cbn [Message.name_time_loop] in H; [discriminate|].
  destruct (fullmatch (Message.name_time_rex E) l) as [m|] eqn:Hm.
  - injection H as <- <-. exists [], l, lines. repeat split; auto.
    + now apply fullmatch_header.
    + now apply fullmatch_header_longest.
  - apply fullmatch_no_header in Hm.
    destruct (IH _ _ H) as (pre & line & post & -> & Hpre & Hp & Hlong).
    exists (l :: pre), line, post. repeat split; auto.
Qed.

(** C3 (amended): with no header line, [sender_name] fails with
    [LookupError]; with one, the name text of the first header line of the
    block (the longest name text that line allows) is cleaned (cut at the
    first ['('], trimmed, the phrase [' sent the following messages at']
    removed) and either it is returned, non-empty and with a first character
    equal to its own capitalisation, or [sender_name] fails on its assertion,
    the cleaned name being empty or starting with a character that
    capitalisation changes; whatever [sender_name] returns is non-empty and
    starts with a character equal to its own capitalisation. *)
Theorem sender_name_contract (E : Env) (raw : str) :
  (Forall (fun l => ~ header_line E l) (splitlines raw) ->
   Message.sender_name E raw = Raise LookupError) /\
  (Exists (header_line E) (splitlines raw) ->
   exists pre line post name time,
     splitlines raw = pre ++ line :: post /\
     Forall (fun l => ~ header_line E l) pre /\
     header_parts E line name time /\
     (forall name' time',
         header_parts E line name' time' -> length name' <= length name) /\
     ((Message.sender_name E raw = Ok (Message.clean_name name) /\
       exists c rest,
         Message.clean_name name = c :: rest /\ capitalize E [c] = [c])
      \/
      (Message.sender_name E raw = Raise (AssertionError None) /\
       (Message.clean_name name = [] \/
        exists c rest,
          Message.clean_name name = c :: rest /\ capitalize E [c] <> [c])))) /\
  (forall n,
      Message.sender_name E raw = Ok n ->
      Exists (header_line E) (splitlines raw) /\
      exists c rest, n = c :: rest /\ capitalize E [c] = [c]).
Proof.
  split; [|split].
  - apply sender_name_no_header.
  - intros H. apply name_time_loop_some in H
      as (pre0 & line0 & post0 & name & time & _ & _ & _ & Hr).
    destruct (name_time_loop_first _ _ Hr)
      as (pre & line & post & Hl & Hpre & Hp & Hlong).
    exists pre, line, post, name, time.
    split; [exact Hl|]. split; [exact Hpre|]. split; [exact Hp|].
    split; [exact Hlong|].
    now apply sender_name_after_header with (time := time).
  - intros n H. split.
    + destruct (Message._name_time E raw) as [[name time]|e] eqn:Hnt.
      * apply name_time_ok_header in Hnt.
        eapply Exists_impl; [|exact Hnt]. intros l Hl. now exists name, time.
      * unfold Message.sender_name in H. rewrite Hnt in H. discriminate.
    + destruct (Message._name_time E raw) as [[name time]|e] eqn:Hnt.
      * destruct (sender_name_after_header _ _ Hnt) as [[Hs Hc] | [Hs _]];
          rewrite Hs in H; [|discriminate].
        injection H as <-. exact Hc.
      * unfold Message.sender_name in H. rewrite Hnt in H. discriminate.
Qed.

(** X11: when [_name_time] returns, the name and the time are the parts of
    the first line of the block that is a header line (some text, one or two
    spaces, a clock time), and the name is the longest the line allows: of
    two spaces before the time, the first belongs to the name. *)
Theorem name_time_first_header (E : Env) (raw name time : str) :
  Message._name_time E raw = Ok (name, time) ->
  exists pre line post,
    splitlines raw = pre ++ line :: post /\
    Forall (fun l => ~ header_line E l) pre /\
    header_parts E line name time /\
    (forall name' time',
        header_parts E line name' time' -> length name' <= length name).
Proof. apply name_time_loop_first. Qed.

(** The statement of X11 at [blockA], whose header has two spaces before the
    time. *)
Lemma name_time_first_header_witness :
  exists pre line post,
    splitlines blockA = pre ++ line :: post /\
    Forall (fun l => ~ header_line Example.env l) pre /\
    header_parts Example.env line (u "Jane Doe (She/Her) ") (u "3:45 PM") /\
    (forall name' time',
        header_parts Example.env line name' time' ->
        length name' <= length (u "Jane Doe (She/Her) ")).
Proof.
  apply (@name_time_first_header Example.env blockA). vm_compute. reflexivity.
Defined.

(** ** [sender_name], its shape *)

Lemma split_head_prefix sep s : exists rest, s = split_head sep s ++ rest.
Proof.
  induction s as [|c s [rest IH]]; simpl; [now exists []|].
  destruct (c =? sep)%N; [now exists (c :: s)|].
  exists rest. simpl. now f_equal.
Qed.

Lemma split_head_free sep s : ~ In sep (split_head sep s).
Proof.
  induction s as [|c s IH]; simpl; [tauto|].
  destruct (c =? sep)%N eqn:Hc; [simpl; tauto|].
  apply N.eqb_neq in Hc. simpl. intros [H | H]; [congruence | tauto].
Qed.

Lemma removesuffix_prefix s suffix : exists rest, s = removesuffix s suffix ++ rest.
Proof.
  unfold removesuffix. destruct (endswith s suffix).
  - exists (skipn (length s - length suffix) s). now rewrite firstn_skipn.
  - exists []. now rewrite app_nil_r.
Qed.

Lemma clean_name_shape (name : str) :
  occurs (Message.clean_name name) name /\
  ~ In (ch "(") (Message.clean_name name) /\
  (Message.clean_name name <> [] ->
   isspace (hd 0%N (Message.clean_name name)) = false).
Proof.
  unfold Message.clean_name.
  destruct (split_head_prefix (ch "(") name) as [r1 H1].
  destruct (strip_split (split_head (ch "(") name)) as (pre & post & H2 & _ & _).
  destruct (removesuffix_prefix (strip (split_head (ch "(") name))
              (u " sent the following messages at")) as [r3 H3].
  set (n := removesuffix _ _) in *. split; [|split].
  - exists pre, (r3 ++ post ++ r1). rewrite H1 at 1. rewrite H2 at 1.
    rewrite H3 at 1. now rewrite <- !app_assoc.
  - intros Hin. apply (@split_head_free (ch "(") name).
    rewrite H2. apply in_or_app. right. apply in_or_app. left.
    rewrite H3. apply in_or_app. now left.
  - intros Hne.
    assert (Hs : strip (split_head (ch "(") name) <> [])
      by (intros Hs; rewrite Hs in H3; destruct n; [contradiction | discriminate]).
    destruct (@strip_trimmed _ Hs) as (_ & Hh & _).
    rewrite H3 in Hh. destruct n; [contradiction | exact Hh].
Qed.

(** X12: a sender name, when [sender_name] returns one, is a part of the
    header's name text, has no ['('] in it, and does not start with
    whitespace. *)
Theorem sender_name_shape (E : Env) (raw n : str) :
  Message.sender_name E raw = Ok n ->
  (exists name time,
      Message._name_time E raw = Ok (name, time) /\ occurs n name) /\
  ~ In (ch "(") n /\
  isspace (hd 0%N n) = false.
Proof.
  intros H. unfold Message.sender_name in H.
  destruct (Message._name_time E raw) as [[name time]|e] eqn:Hnt; [|discriminate].
  cbn [bind fst] in H.
  destruct (clean_name_shape name) as (Hocc & Hfree & Hhd).
  destruct (Message.clean_name name) as [|c rest] eqn:Hc; [discriminate|].
  destruct (str_eqb [c] (capitalize E [c])); [|discriminate].
  injection H as <-. split; [|split].
  - now exists name, time.
  - exact Hfree.
  - apply Hhd. discriminate.
Qed.

(** The statement of X12 at [blockA]. *)
Lemma sender_name_shape_witness :
  (exists name time,
      Message._name_time Example.env blockA = Ok (name, time) /\
      occurs (u "Jane Doe") name) /\
  ~ In (ch "(") (u "Jane Doe") /\
  isspace (hd 0%N (u "Jane Doe")) = false.
Proof.
  apply (@sender_name_shape Example.env blockA). vm_compute. reflexivity.
Defined.

(** A sender name may still end with whitespace: the phrase is removed after
    the trimming. *)
Example sender_name_trailing_space :
  Message.sender_name Example.env
    (u "Jane  sent the following messages at 3:45 PM") = Ok (u "Jane ").
Proof. vm_compute. reflexivity. Qed.

(** ** [time] and [date], the tokens they hand to the parser *)

Lemma name_time_loop_error E : forall lines e,
  Message.name_time_loop E lines = Raise e ->
  e = LookupError /\ Forall (fun l => ~ header_line E l) lines.
Proof.
  induction lines as [|l lines IH]; intros e H; cbn [Message.name_time_loop] in H.
  - injection H as <-. split; [reflexivity | constructor].
  - destruct (fullmatch (Message.name_time_rex E) l) as [m|] eqn:Hm; [discriminate|].
    apply fullmatch_no_header in Hm. destruct (IH _ H) as [-> Hall].
    split; [reflexivity | now constructor].
Qed.

Lemma name_time_clock E raw name time :
  Message._name_time E raw = Ok (name, time) -> clock_token E time.
Proof.
  intros H. apply name_time_ok_header in H. apply Exists_exists in H.
  destruct H as (l & _ & sep & _ & _ & _ & _ & Hc). exact Hc.
Qed.

(** X13: [time] fails with [LookupError] exactly when the block has no header
    line, and with the parser's error exactly when the parser rejects the
    clock time of the header; it fails in no other way, and what it hands to
    the parser is always a clock time ([h:mm AM] or [h:mm PM]). *)
Theorem time_reads_clock (E : Env) (raw : str) :
  (Message.time E raw = Raise LookupError <->
   Forall (fun l => ~ header_line E l) (splitlines raw)) /\
  (Message.time E raw = Raise ParserError <->
   exists name token,
     Message._name_time E raw = Ok (name, token) /\
     dateutil_parse E token = None) /\
  (forall e, Message.time E raw = Raise e ->
             e = LookupError \/ e = ParserError) /\
  (forall t, Message.time E raw = Ok t ->
             exists name token dt,
               Message._name_time E raw = Ok (name, token) /\
               clock_token E token /\
               dateutil_parse E token = Some dt /\ t = time_of dt).
Proof.
  unfold Message.time.
  destruct (Message._name_time E raw) as [[name token]|e0] eqn:Hnt; cbn [bind snd].
  - assert (Hclock : clock_token E token).
    { pose proof Hnt as H. now apply name_time_clock in H. }
    assert (Hnot : ~ Forall (fun l => ~ header_line E l) (splitlines raw)).
    { intros Hall. pose proof Hnt as H. apply name_time_ok_header in H.
      apply Exists_exists in H as (l & Hin & Hl).
      rewrite Forall_forall in Hall. apply (Hall l Hin). now exists name, token. }
    destruct (dateutil_parse E token) as [dt|] eqn:Hp.
    + split; [|split; [|split]].
      * split; [discriminate | tauto].
      * split; [discriminate|].
        intros (n' & t' & Heq & Hnone). injection Heq as <- <-. congruence.
      * discriminate.
      * intros t Ht. injection Ht as <-. now exists name, token, dt.
    + split; [|split; [|split]].
      * split; [discriminate | tauto].
      * split; [intros _; now exists name, token | reflexivity].
      * intros e He. injection He as <-. now right.
      * discriminate.
  - unfold Message._name_time in Hnt. apply name_time_loop_error in Hnt as [-> Hall].
    split; [|split; [|split]].
    + split; auto.
    + split; [discriminate|]. intros (n' & t' & Heq & _). discriminate.
    + intros e He. injection He as <-. now left.
    + discriminate.
Qed.

(** [search] returns the match that starts first. *)
Lemma search_leftmost r : forall s m,
  search r s = Some m ->
  exists pre,
    s = pre ++ whole m ++ rest_after m /\
    Matches r (whole m) [] (groups m) /\
    (forall a w b g, s = a ++ w ++ b -> Matches r w [] g ->
                     length pre <= length a).
Proof.
  induction s as [|c s IH]; intros m H; cbn [search] in H.
  - destruct (match_at r []) eqn:Hm; [|discriminate]. injection H as ->.
    apply match_at_sound in Hm as [Hs M]. exists []. repeat split; auto.
    intros; simpl; lia.
  - destruct (match_at r (c :: s)) eqn:Hm.
    + injection H as ->. apply match_at_sound in Hm as [Hs M].
      exists []. repeat split; auto. intros; simpl; lia.
    + destruct (IH _ H) as (pre & Hs & M & Hleft).
      exists (c :: pre). repeat split; auto.
      * simpl. now f_equal.
      * intros a w b g Heq Mw. destruct a as [|c' a]; simpl in Heq.
        -- apply (match_at_complete b) in Mw. rewrite <- Heq in Mw. contradiction.
        -- injection Heq as _ Heq. simpl. apply le_n_S. now apply (Hleft a w b g).
Qed.

(** X14: when [date] returns, the text it gave to the parser is a date token
    of the block (a line feed, a capital and two more letters, a space, one
    or two digits, perhaps a comma, a space and four digits), the one that
    starts first in the block, and the date is the parser's reading of
    it. *)
Theorem date_reads_first_token (E : Env) (raw : str) (d : date_t) :
  Message.date E raw = Ok d ->
  exists pre token post dt,
    raw = pre ++ token ++ post /\
    date_token E token /\
    (forall a w b, raw = a ++ w ++ b -> date_token E w ->
                   length pre <= length a) /\
    dateutil_parse E token = Some dt /\
    d = date_of dt.
Proof.
  unfold Message.date. intros H.
  destruct (search (Message.date_rex E) raw) as [m|] eqn:Hs.
  - destruct (dateutil_parse E (whole m)) as [dt|] eqn:Hp; [|discriminate].
    injection H as <-.
    apply search_leftmost in Hs as (pre & Hraw & M & Hleft).
    exists pre, (whole m), (rest_after m), dt. repeat split; auto.
    + now apply date_rex_inv in M.
    + intros a w b Heq T. apply date_rex_complete in T as [g Mw].
      now apply (Hleft a w b g).
  - destruct (Message.sender_name E raw); discriminate.
Qed.

(** The statement of X14 at [blockA], dated [Mar 5, 2023]. *)
Lemma date_reads_first_token_witness :
  exists pre token post dt,
    blockA = pre ++ token ++ post /\
    date_token Example.env token /\
    (forall a w b, blockA = a ++ w ++ b -> date_token Example.env w ->
                   length pre <= length a) /\
    dateutil_parse Example.env token = Some dt /\
    Date 2023 3 5 = date_of dt.
Proof.
  apply (@date_reads_first_token Example.env blockA). vm_compute. reflexivity.
Defined.

Lemma sender_name_error E raw e :
  Message.sender_name E raw = Raise e ->
  e = LookupError \/ e = AssertionError None.
Proof.
  unfold Message.sender_name, Message._name_time.
  destruct (Message.name_time_loop E (splitlines raw)) as [[name time]|e0] eqn:Hnt;
    cbn [bind fst].
  - destruct (Message.clean_name name) as [|c rest].
    + intros H. injection H as <-. now right.
    + destruct (str_eqb [c] (capitalize E [c])); [discriminate|].
      intros H. injection H as <-. now right.
  - apply name_time_loop_error in Hnt as [-> _].
    intros H. injection H as <-. now left.
Qed.

Lemma as_dict_needs_line_feed E raw :
  ~ In Message.LF raw ->
  exists e, Message.as_dict E raw = Raise e /\ e <> ParserError.
Proof.
  intros Hno.
  assert (Hnd : no_date E raw).
  { intros pre w post -> (A & bc & dd & yr & -> & _). apply Hno.
    apply in_or_app. right. apply in_or_app. left. now left. }
  apply search_date_none in Hnd.
  unfold Message.as_dict, Message.date. rewrite Hnd.
  destruct (Message.sender_name E raw) as [n|e] eqn:Hn; cbn [bind].
  - eexists. split; [reflexivity | discriminate].
  - exists e. split; [reflexivity|].
    apply sender_name_error in Hn as [-> | ->]; discriminate.
Qed.

(** X15: a block with no line feed in it never gets a record: the date
    pattern starts with a line feed, so a date on the first line is not
    seen, and [as_dict] fails, with [LookupError] or with an
    [AssertionError], before the parser is ever called. *)
Theorem one_line_block_fails (E : Env) (raw : str) :
  ~ In Message.LF raw ->
  exists e, Message.as_dict E raw = Raise e /\ e <> ParserError.
Proof. apply as_dict_needs_line_feed. Qed.

(** The statement of X15 at a block that is a header line and nothing
    more. *)
Lemma one_line_block_fails_witness :
  exists e,
    Message.as_dict Example.env (u "Jane Doe  3:45 PM Mar 5, 2023") = Raise e /\
    e <> ParserError.
Proof.
  apply (@one_line_block_fails Example.env (u "Jane Doe  3:45 PM Mar 5, 2023")).
  vm_compute. intuition discriminate.
Defined.

(** ** [salary], the values *)

Lemma Tokens_occur E s ds :
  Tokens E s ds -> Forall (fun d => occurs d s) ds.
Proof.
  induction 1 as [|pre w post d ds T _ _ IH]; constructor.
  - destruct T as (sign & unit & -> & _).
    exists (pre ++ sign), (unit ++ post). now rewrite <- !app_assoc.
  - eapply Forall_impl; [|exact IH]. intros x [a [b ->]].
    exists (pre ++ w ++ a), b. now rewrite <- !app_assoc.
Qed.

(** X16: each member of the salary pair is either empty or two or three
    decimal digits that stand in the block; in particular the sign and the
    [k], [K] or [,000] of the token never get into it. *)
Theorem salary_values (E : Env) (raw : str) :
  (fst (Message.salary E raw) = [] \/
   digits E 2 3 (fst (Message.salary E raw)) /\
   occurs (fst (Message.salary E raw)) raw) /\
  (snd (Message.salary E raw) = [] \/
   digits E 2 3 (snd (Message.salary E raw)) /\
   occurs (snd (Message.salary E raw)) raw).
Proof.
  pose proof (salary_matches_tokens E raw) as T.
  pose proof (Tokens_digits T) as Hd. pose proof (Tokens_occur T) as Ho.
  assert (Hin : forall d, In d (Message.salary_matches E raw) ->
                          digits E 2 3 d /\ occurs d raw).
  { intros d Hd'. rewrite Forall_forall in Hd, Ho.
    destruct (Hd d Hd') as [Hl Hdec]. split; [now split | now apply Ho]. }
  unfold Message.salary.
  destruct (Message.salary_matches E raw) as [|a ms]; [simpl; auto|].
  destruct (Nat.eqb (Message.distinct (a :: ms)) 1).
  - simpl. split; [now left | right; apply Hin; now left].
  - destruct ms as [|b rest]; simpl.
    + split; [right; apply Hin; now left | now left].
    + split; right; apply Hin; simpl; auto.
Qed.

(** ** [sender_title], the other way round *)

Lemma sender_title_loop_origin : forall lines t,
  Message.sender_title_loop false lines = t -> t <> [] ->
  exists pre m post,
    lines = pre ++ m :: t :: post /\
    Forall (fun l => ~ occurs marker l) pre /\ occurs marker m.
Proof.
  induction lines as [|l lines IH]; intros t H Hne;
    cbn [Message.sender_title_loop] in H.
  - subst t. now contradiction Hne.
  - destruct (contains (u "· ") l) eqn:Hl.
    + destruct lines as [|t' post]; cbn [Message.sender_title_loop] in H.
      * subst t. now contradiction Hne.
      * subst t'. exists [], l, post. repeat split; auto.
        now apply contains_spec.
    + destruct (IH t H Hne) as (pre & m & post & -> & Hpre & Hm).
      exists (l :: pre), m, post. repeat split; auto.
      constructor; [now apply contains_false | exact Hpre].
Qed.

Lemma splitlines_no_breaks : forall n s,
  length s <= n ->
  Forall (fun l => forallb (fun c => negb (is_linebreak c)) l = true)
         (splitlines s).
Proof.
  induction n as [|n IH]; intros s Hn.
  - destruct s; [constructor | simpl in Hn; lia].
  - destruct s as [|c rest]; [constructor|]. simpl in Hn.
    cbn [splitlines]. destruct (is_linebreak c) eqn:Hc.
    + constructor; [reflexivity|].
      destruct rest as [|c' rest']; [constructor|].
      destruct ((c =? 13) && (c' =? 10))%N.
      * apply IH. simpl in Hn. lia.
      * apply IH. lia.
    + assert (Hrest := IH rest ltac:(lia)).
      destruct (splitlines rest) as [|l ls].
      * constructor; [simpl; now rewrite Hc | constructor].
      * inversion Hrest as [|? ? Hl Hls]; subst.
        constructor; [simpl; now rewrite Hc, Hl | exact Hls].
Qed.

(** X17: a title, when [sender_title] finds one, is a line of the block: the
    line right after the first line that contains ['· ']; and it has no
    line break in it. *)
Theorem sender_title_origin (raw : str) :
  Message.sender_title raw <> [] ->
  (exists pre m post,
      splitlines raw = pre ++ m :: Message.sender_title raw :: post /\
      Forall (fun l => ~ occurs marker l) pre /\ occurs marker m) /\
  forallb (fun c => negb (is_linebreak c)) (Message.sender_title raw) = true.
Proof.
  intros Hne. set (t := Message.sender_title raw) in *.
  destruct (@sender_title_loop_origin (splitlines raw) t eq_refl Hne)
    as (pre & m & post & Hs & Hpre & Hm).
  split; [now exists pre, m, post|].
  pose proof (@splitlines_no_breaks (length raw) raw (le_n _)) as Hall.
  rewrite Hs, Forall_forall in Hall. apply Hall.
  apply in_or_app. right. right. now left.
Qed.

(** The statement of X17 at [blockA]. *)
Lemma sender_title_origin_witness :
  (exists pre m post,
      splitlines blockA = pre ++ m :: Message.sender_title blockA :: post /\
      Forall (fun l => ~ occurs marker l) pre /\ occurs marker m) /\
  forallb (fun c => negb (is_linebreak c)) (Message.sender_title blockA) = true.
Proof.
  apply (@sender_title_origin blockA). vm_compute. discriminate.
Defined.

(** ** The record as a whole *)

Lemma salary_low_needs_high E raw :
  fst (Message.salary E raw) <> [] -> snd (Message.salary E raw) <> [].
Proof.
  pose proof (Tokens_digits (salary_matches_tokens E raw)) as Hdig.
  assert (Hpos : forall d, In d (Message.salary_matches E raw) -> d <> []).
  { intros d Hd. rewrite Forall_forall in Hdig.
    destruct (Hdig d Hd) as [[Hl _] _]. intros ->. simpl in Hl. lia. }
  unfold Message.salary.
  destruct (Message.salary_matches E raw) as [|a [|b rest]]; [simpl; auto | |].
  - intros _. simpl. apply Hpos. now left.
  - destruct (Nat.eqb (Message.distinct (a :: b :: rest)) 1); intros _; simpl.
    + apply Hpos. now left.
    + apply Hpos. right. now left.
Qed.

(** X18: in every record [as_dict] returns the fields hang together: the
    sender name is not empty; [read_cv] entails [has_name] and excludes
    [autogenerated]; without [has_name] the record is [autogenerated]; a
    low salary never comes without a high one; [chars] is the length of the
    block; and the block has a line feed in it: a record needs two lines at
    least. *)
Theorem as_dict_record (E : Env) (raw : str) (r : Fields.t) :
  Message.as_dict E raw = Ok r ->
  Fields.sender_name r <> [] /\
  (Fields.read_cv r = true ->
   Fields.has_name r = true /\ Fields.autogenerated r = false) /\
  (Fields.has_name r = false -> Fields.autogenerated r = true) /\
  (Fields.salary_low r <> [] -> Fields.salary_high r <> []) /\
  Fields.chars r = length raw /\
  In Message.LF raw.
Proof.
  intros H.
  assert (Hlf : In Message.LF raw).
  { destruct (in_dec N.eq_dec Message.LF raw) as [Hin|Hout]; [exact Hin|].
    destruct (@as_dict_needs_line_feed E raw Hout) as [e [He _]].
    rewrite He in H. discriminate. }
  unfold Message.as_dict in H.
  destruct (Message.sender_name E raw) as [n|e] eqn:Hn; [|discriminate].
  destruct (Message.date E raw) as [d|e]; [|discriminate].
  destruct (Message.time E raw) as [t|e]; [|discriminate].
  cbn [bind] in H. injection H as <-.
  cbn [Fields.sender_name Fields.read_cv Fields.has_name Fields.autogenerated
       Fields.salary_low Fields.salary_high Fields.chars].
  split; [|split; [|split; [|split; [|split]]]]; auto.
  - unfold Message.sender_name in Hn.
    destruct (Message._name_time E raw) as [[name time]|e]; [|discriminate].
    cbn [bind fst] in Hn. destruct (Message.clean_name name); [discriminate|].
    destruct (str_eqb _ _); [|discriminate]. injection Hn as <-. discriminate.
  - unfold Message.read_cv, Message.has_name, Message.autogenerated.
    intros ->. now split.
  - unfold Message.has_name, Message.autogenerated.
    destruct (contains (u "Gram") raw); [discriminate|]. now intros ->.
  - apply salary_low_needs_high.
Qed.

(** The statement of X18 at [blockA]. *)
Lemma as_dict_record_witness :
  exists r,
    Message.as_dict Example.env blockA = Ok r /\
    Fields.sender_name r <> [] /\
    (Fields.read_cv r = true ->
     Fields.has_name r = true /\ Fields.autogenerated r = false) /\
    (Fields.has_name r = false -> Fields.autogenerated r = true) /\
    (Fields.salary_low r <> [] -> Fields.salary_high r <> []) /\
    Fields.chars r = length blockA /\
    In Message.LF blockA.
Proof.
  destruct (Message.as_dict Example.env blockA) as [r|e] eqn:Hr;
    [|vm_compute in Hr; discriminate].
  exists r. split; [reflexivity|].
  exact (@as_dict_record Example.env blockA r Hr).
Defined.

(** ** Which exception tells what *)

(** X19: [date] fails with the parser's error only when the block has a date
    token and the parser rejects it; when the block has no date token, the
    failure is the assertion carrying the sender name if [sender_name]
    returns, and otherwise the failure of [sender_name] itself: reading the
    diagnostic can fail before the assertion does. *)
Theorem date_failures (E : Env) (raw : str) :
  (no_date E raw ->
   (forall n, Message.sender_name E raw = Ok n ->
              Message.date E raw = Raise (AssertionError (Some n))) /\
   (forall e, Message.sender_name E raw = Raise e ->
              Message.date E raw = Raise e)) /\
  (Message.date E raw = Raise ParserError <->
   exists m, search (Message.date_rex E) raw = Some m /\
             date_token E (whole m) /\
             dateutil_parse E (whole m) = None) /\
  (~ no_date E raw ->
   forall e, Message.date E raw = Raise e -> e = ParserError).
Proof.
  unfold Message.date.
  destruct (search (Message.date_rex E) raw) as [m|] eqn:Hs.
  - assert (Hnd : ~ no_date E raw).
    { intros H. apply search_date_none in H. congruence. }
    pose proof (search_date_some _ _ Hs) as [_ Htok].
    split; [tauto|]. split.
    + destruct (dateutil_parse E (whole m)) eqn:Hp.
      * split; [discriminate|]. intros (m' & Heq & _ & Hn).
        injection Heq as <-. congruence.
      * split; [|reflexivity]. intros _. now exists m.
    + intros _ e. destruct (dateutil_parse E (whole m)); [discriminate|].
      intros H. now injection H as <-.
  - assert (Hnd : no_date E raw) by now apply search_date_none.
    split; [|split].
    + intros _. split.
      * intros n ->. reflexivity.
      * intros e ->. reflexivity.
    + split.
      * destruct (Message.sender_name E raw) as [n|e] eqn:Hn; cbn [bind].
        -- discriminate.
        -- intros H. injection H as ->.
           apply sender_name_error in Hn as [Hn | Hn]; discriminate.
      * intros (m & Heq & _). discriminate.
    + tauto.
Qed.

(** X20: the exception of [as_dict] tells what went wrong: it is
    [LookupError] exactly when the block has no header line; an
    [AssertionError] without a message exactly when a header line is there
    and its name is refused; an [AssertionError] with a message exactly when
    the name is accepted, the message being that name, and the block has no
    date token; and in every other failure the parser's error. *)
Theorem as_dict_exception (E : Env) (raw : str) :
  (Message.as_dict E raw = Raise LookupError <->
   Forall (fun l => ~ header_line E l) (splitlines raw)) /\
  (Message.as_dict E raw = Raise (AssertionError None) <->
   Message.sender_name E raw = Raise (AssertionError None)) /\
  (forall n,
      Message.as_dict E raw = Raise (AssertionError (Some n)) <->
      Message.sender_name E raw = Ok n /\ no_date E raw) /\
  (forall e,
      Message.as_dict E raw = Raise e ->
      e = LookupError \/ e = AssertionError None \/
      (exists n, e = AssertionError (Some n)) \/ e = ParserError).
Proof.
  assert (Hlookup : Message.sender_name E raw = Raise LookupError <->
                    Forall (fun l => ~ header_line E l) (splitlines raw)).
  { split; [|apply sender_name_no_header].
    unfold Message.sender_name, Message._name_time.
    destruct (Message.name_time_loop E (splitlines raw)) as [[name time]|e] eqn:Hnt;
      cbn [bind fst].
    - destruct (Message.clean_name name) as [|c rest]; [discriminate|].
      destruct (str_eqb [c] (capitalize E [c])); discriminate.
    - intros _. now apply name_time_loop_error in Hnt. }
  unfold Message.as_dict.
  destruct (Message.sender_name E raw) as [n|e0] eqn:Hn; cbn [bind].
  - assert (Hcases :
        (no_date E raw /\ Message.date E raw = Raise (AssertionError (Some n))) \/
        (~ no_date E raw /\
         (Message.date E raw = Raise ParserError \/ exists d, Message.date E raw = Ok d))).
    { unfold Message.date. rewrite Hn. cbn [bind].
      destruct (search (Message.date_rex E) raw) as [m|] eqn:Hs.
      - right. split.
        + intros H. apply search_date_none in H. congruence.
        + destruct (dateutil_parse E (whole m)); [right; eauto | now left].
      - left. split; [now apply search_date_none | reflexivity]. }
    assert (Htime : forall e, Message.time E raw = Raise e -> e = ParserError).
    { unfold Message.time. intros e.
      destruct (Message._name_time E raw) as [[name token]|e1] eqn:Hnt; cbn [bind snd].
      - destruct (dateutil_parse E token); [discriminate|].
        intros H. now injection H as <-.
      - unfold Message.sender_name in Hn. rewrite Hnt in Hn. discriminate. }
    destruct Hcases as [[Hnd Hd] | [Hnd [Hd | [d Hd]]]]; rewrite Hd; cbn [bind].
    + split; [|split; [|split]].
      * split; [discriminate|]. intros H. apply Hlookup in H. discriminate.
      * split; discriminate.
      * intros n'. split.
        -- intros H. injection H as <-. now split.
        -- intros [H _]. now injection H as <-.
      * intros e H. injection H as <-. right. right. left. now exists n.
    + split; [|split; [|split]].
      * split; [discriminate|]. intros H. apply Hlookup in H. discriminate.
      * split; discriminate.
      * intros n'. split; [discriminate | tauto].
      * intros e H. injection H as <-. auto.
    + destruct (Message.time E raw) as [t|e1] eqn:Ht; cbn [bind].
      * split; [|split; [|split]].
        -- split; [discriminate|]. intros H. apply Hlookup in H. discriminate.
        -- split; discriminate.
        -- intros n'. split; [discriminate | tauto].
        -- discriminate.
      * rewrite (Htime e1 eq_refl).
        split; [|split; [|split]].
        -- split; [discriminate|]. intros H. apply Hlookup in H. discriminate.
        -- split; discriminate.
        -- intros n'. split; [discriminate | tauto].
        -- intros e H. injection H as <-. auto.
  - pose proof (sender_name_error _ _ Hn) as He0.
    split; [|split; [|split]].
    + rewrite <- Hlookup. split; intros H; now injection H as ->.
    + split; intros H; now injection H as ->.
    + intros n. split; [|intros [H _]; discriminate].
      intros H. injection H as ->. destruct He0; discriminate.
    + intros e H. injection H as <-. tauto.
Qed.

(** ** Flags and the text around *)

Lemma contains_in_context (w pre raw post : str) :
  contains w raw = true -> contains w (pre ++ raw ++ post) = true.
Proof.
  rewrite !contains_spec. intros [a [b ->]].
  exists (pre ++ a), (b ++ post). now rewrite <- !app_assoc.
Qed.

(** X21: text added before or after a block never turns off [has_name],
    [read_cv], [has_url], [has_emoji] or [has_email]. *)
Theorem flags_survive_context (E : Env) (pre raw post : str) :
  (Message.has_name raw = true ->
   Message.has_name (pre ++ raw ++ post) = true) /\
  (Message.read_cv raw = true ->
   Message.read_cv (pre ++ raw ++ post) = true) /\
  (Message.has_url raw = true ->
   Message.has_url (pre ++ raw ++ post) = true) /\
  (Message.has_emoji E raw = true ->
   Message.has_emoji E (pre ++ raw ++ post) = true) /\
  (Message.has_email raw = true ->
   Message.has_email (pre ++ raw ++ post) = true).
Proof.
  split; [|split; [|split; [|split]]].
  - unfold Message.has_name.
    destruct (contains (u "Gram") raw) eqn:HG.
    + intros _. now rewrite (contains_in_context _ pre _ post HG).
    + intros HN. rewrite (contains_in_context _ pre _ post HN).
      now destruct (contains (u "Gram") (pre ++ raw ++ post)).
  - unfold Message.read_cv. apply contains_in_context.
  - unfold Message.has_url. rewrite !orb_true_iff.
    intros [H | H]; [left | right]; now apply contains_in_context.
  - unfold Message.has_emoji. rewrite !existsb_app. intros ->.
    now rewrite orb_true_r.
  - unfold Message.has_email.
    destruct (search Message.email_rex raw) as [m|] eqn:Hs; [|discriminate].
    intros _. apply search_sound in Hs as (a & -> & M).
    pose proof (@search_complete Message.email_rex (pre ++ a) (whole m)
                  (rest_after m ++ post) _ M) as Hc.
    rewrite <- !app_assoc in *.
    now destruct (search Message.email_rex _).
Qed.

(** ** From the archive to the records *)

Lemma main_loop_all E : forall l rs,
  Forall2 (fun raw r => Message.as_dict E raw = Ok r) l rs ->
  main_loop E l = (rs, None).
Proof.
  induction 1 as [|raw r l rs Hr _ IH]; cbn [main_loop]; [reflexivity|].
  now rewrite Hr, IH.
Qed.

(** X22: for an archive written as blocks joined by five line feeds, each
    of which [as_dict] accepts, [main] prints the records of these blocks, one
    for each and in their order, and does not fail. *)
Theorem main_of_joined_blocks (E : Env) (bs : list str) (rs : list Fields.t) :
  Forall block bs ->
  Forall2 (fun raw r => Message.as_dict E raw = Ok r) bs rs ->
  main E (join separator bs) = (rs, None).
Proof.
  intros Hb Hr. unfold main. rewrite (raws_of_join Hb).
  now apply main_loop_all.
Qed.

(** The statement of X22 at an archive of [blockA] twice. *)
Lemma main_of_joined_blocks_witness :
  exists r, main Example.env (join separator [blockA; blockA]) = ([r; r], None).
Proof.
  destruct (Message.as_dict Example.env blockA) as [r|e] eqn:Hr;
    [|vm_compute in Hr; discriminate].
  exists r.
  apply (@main_of_joined_blocks Example.env [blockA; blockA] [r; r]).
  - repeat constructor; apply block_by_computation; reflexivity.
  - repeat constructor; exact Hr.
Defined.
